(** * orcus::parser_base — the buffer cursor and its scanning primitives

    A shallow embedding of [src/parser/parser_base.cpp]: the cursor
    ([mp_begin], [mp_char], [mp_end]) over a borrowed byte buffer, the
    skip engines, the token matcher and the numeric adapter, each in all
    of the variants the preprocessor can select (scalar, SSE4.2, AVX2),
    and the parse error with its message builders.

    Pointers and [size_t] quantities are integers ([Z]); under the cursor
    invariant no pointer difference leaves the range of [size_t].  The
    narrowing conversions to [int] that the source performs are written
    out ([to_int]).  Memory is a total map from addresses to bytes, so
    that the fixed-width loads of the vectorized paths, which read past
    the declared end of the buffer, have a value. *)

From Stdlib Require Import ZArith List Bool Lia Arith.
From Stdlib Require Import Strings.Byte Floats.SpecFloat.
From Stdlib Require Strings.String Strings.Ascii Numbers.DecimalString
  Numbers.DecimalZ.
Import ListNotations.
Local Open Scope Z_scope.

(** ** Machine integers and bytes *)

(** Conversion to a 32-bit two's complement [int]. *)
Definition to_int (x : Z) : Z := (x + 2 ^ 31) mod 2 ^ 32 - 2 ^ 31.

(** Conversion to a 32-bit [unsigned]. *)
Definition to_uint (x : Z) : Z := x mod 2 ^ 32.

(** [(unsigned char) c]. *)
Definition uchar (c : byte) : Z := Z.of_N (Byte.to_N c).

(** The signed reading of an 8-bit lane. *)
Definition schar (x : Z) : Z := if x <? 128 then x else x - 256.

Definition memory := Z -> byte.

(** ** Vector intrinsics

    The x86 intrinsics the source calls, following the pseudo-code of
    the Intel instruction set reference for PCMPESTRI / PCMPESTRM (byte
    elements only, the one form the source uses) and for the AVX2 byte
    operations.  A vector register is the list of its byte lanes, least
    significant first, each lane an unsigned value. *)

Module Intrin.

Definition vec := list Z.

Definition lane (v : vec) (i : nat) : Z := nth i v 0.

Definition load (width : nat) (mem : memory) (p : Z) : vec :=
  map (fun i => uchar (mem (p + Z.of_nat i))) (seq 0 width).

Definition _mm_loadu_si128 := load 16.
Definition _mm256_loadu_si256 := load 32.

Definition _SIDD_UBYTE_OPS : Z := 0x00.
Definition _SIDD_CMP_EQUAL_ANY : Z := 0x00.
Definition _SIDD_CMP_RANGES : Z := 0x04.
Definition _SIDD_CMP_EQUAL_EACH : Z := 0x08.
Definition _SIDD_CMP_EQUAL_ORDERED : Z := 0x0c.
Definition _SIDD_NEGATIVE_POLARITY : Z := 0x10.
Definition _SIDD_MASKED_NEGATIVE_POLARITY : Z := 0x30.
Definition _SIDD_LEAST_SIGNIFICANT : Z := 0x00.
Definition _SIDD_MOST_SIGNIFICANT : Z := 0x40.
Definition _SIDD_BIT_MASK : Z := 0x00.
Definition _SIDD_UNIT_MASK : Z := 0x40.

(** An explicit length operand: its absolute value, saturated to the
    number of lanes. *)
Definition str_len (l : Z) : nat := Z.to_nat (Z.min 16 (Z.abs l)).

(** imm8[3:2], the aggregation operation. *)
Definition aggregation (imm8 : Z) : Z := Z.land (Z.shiftr imm8 2) 3.

(** imm8[1] selects the signed reading of the elements. *)
Definition element (imm8 : Z) (x : Z) : Z :=
  if Z.testbit imm8 1 then schar x else x.

(** [BoolRes imm8 a la b lb j i]: the comparison of element [j] of the
    second operand [b] with element [i] of the first operand [a], with the
    override for elements past the end of either string. *)
Definition BoolRes (imm8 : Z) (a : vec) (la : nat) (b : vec) (lb : nat)
    (j i : nat) : bool :=
  let x := element imm8 (lane a i) in
  let y := element imm8 (lane b j) in
  let agg := aggregation imm8 in
  match (la <=? i)%nat, (lb <=? j)%nat with
  | false, false =>
      if agg =? 1 then (if Nat.even i then x <=? y else y <=? x) else x =? y
  | false, true => false
  | true, false => agg =? 3
  | true, true => (agg =? 2) || (agg =? 3)
  end.

Definition IntRes1 (imm8 : Z) (a : vec) (la : nat) (b : vec) (lb : nat)
    (j : nat) : bool :=
  let br := BoolRes imm8 a la b lb in
  match aggregation imm8 with
  | 0 => existsb (fun i => br j i) (seq 0 16)
  | 1 => existsb (fun k => br j (2 * k)%nat && br j (2 * k + 1)%nat) (seq 0 8)
  | 2 => br j j
  | _ => forallb (fun i => br (j + i)%nat i) (seq 0 (16 - j))
  end.

(** imm8[5:4], the polarity. *)
Definition IntRes2 (imm8 : Z) (a : vec) (la : nat) (b : vec) (lb : nat)
    (j : nat) : bool :=
  let r := IntRes1 imm8 a la b lb j in
  if Z.testbit imm8 4
  then if Z.testbit imm8 5
       then (if (lb <=? j)%nat then r else negb r)
       else negb r
  else r.

Definition int_res2 (imm8 : Z) (a : vec) (la : Z) (b : vec) (lb : Z)
    : list bool :=
  map (IntRes2 imm8 a (str_len la) b (str_len lb)) (seq 0 16).

(** Index of the first set bit, the number of bits when none is set. *)
Fixpoint lsb_index (bits : list bool) : nat :=
  match bits with
  | [] => O
  | b :: rest => if b then O else S (lsb_index rest)
  end.

(** Index of the last set bit, the number of bits when none is set. *)
Definition msb_index (bits : list bool) : nat :=
  let k := lsb_index (rev bits) in
  if (k <? length bits)%nat then (length bits - 1 - k)%nat else length bits.

Definition bits_to_Z (bits : list bool) : Z :=
  fold_right (fun b acc => Z.b2z b + 2 * acc) 0 bits.

Definition _mm_cmpestri (a : vec) (la : Z) (b : vec) (lb : Z) (imm8 : Z) : Z :=
  let bits := int_res2 imm8 a la b lb in
  Z.of_nat (if Z.testbit imm8 6 then msb_index bits else lsb_index bits).

Definition _mm_cmpestrm (a : vec) (la : Z) (b : vec) (lb : Z) (imm8 : Z) : vec :=
  let bits := int_res2 imm8 a la b lb in
  if Z.testbit imm8 6
  then map (fun b : bool => if b then 255 else 0) bits
  else bits_to_Z (firstn 8 bits) :: bits_to_Z (skipn 8 bits) :: repeat 0 14%nat.

Definition _mm_cvtsi128_si32 (v : vec) : Z :=
  to_int (lane v 0 + 2 ^ 8 * lane v 1 + 2 ^ 16 * lane v 2 + 2 ^ 24 * lane v 3).

Fixpoint lanewise (f : Z -> Z -> Z) (a b : vec) : vec :=
  match a, b with
  | x :: a', y :: b' => f x y :: lanewise f a' b'
  | _, _ => []
  end.

Definition _mm256_set1_epi8 (c : Z) : vec := repeat (c mod 256) 32.

Definition _mm256_cmpgt_epi8 : vec -> vec -> vec :=
  lanewise (fun x y => if schar x >? schar y then 255 else 0).

Definition _mm256_and_si256 : vec -> vec -> vec := lanewise Z.land.
Definition _mm256_or_si256 : vec -> vec -> vec := lanewise Z.lor.

Definition _mm256_movemask_epi8 (v : vec) : Z :=
  to_int (bits_to_Z (map (fun x => Z.testbit x 7) v)).

Definition _tzcnt_u32 (x : Z) : Z :=
  Z.of_nat (lsb_index (map (fun i => Z.testbit (to_uint x) (Z.of_nat i)) (seq 0 32))).

End Intrin.

(** ** The cursor *)

(** The preprocessor symbols that select a variant of each operation. *)
Record cpu_features := {
  ORCUS_CPU_FEATURES : bool;
  SSE4_2 : bool;
  AVX2 : bool
}.

(** The injected numeric strategy, a function pointer taking the
    pointer [p] by reference and a [size_t max_length]: from the memory,
    the pointer and the length it gives the parsed value and the pointer
    after the consumed bytes. *)
Definition numeric_func := memory -> Z -> Z -> spec_float * Z.

Definition quiet_NaN : spec_float := S754_nan.

Record parser_base := {
  mp_begin : Z;
  mp_char : Z;
  mp_end : Z;
  m_transient_stream : bool;
  m_func_parse_numeric : numeric_func
}.

Definition set_char (c : parser_base) (p : Z) : parser_base :=
  {| mp_begin := mp_begin c;
     mp_char := p;
     mp_end := mp_end c;
     m_transient_stream := m_transient_stream c;
     m_func_parse_numeric := m_func_parse_numeric c |}.

(** [parser_base::parser_base(p, n, transient_stream)]; [parse_numeric]
    is the global strategy the constructor binds, defined outside this
    translation unit. *)
Definition parser_base_ctor (parse_numeric : numeric_func)
    (p n : Z) (transient_stream : bool) : parser_base :=
  {| mp_begin := p;
     mp_char := p;
     mp_end := p + n;
     m_transient_stream := transient_stream;
     m_func_parse_numeric := parse_numeric |}.

(** The data model's invariant, [start <= current <= end]. *)
Definition cursor_inv (c : parser_base) : Prop :=
  mp_begin c <= mp_char c <= mp_end c.

Section Parser.

Variable mem : memory.

(** Modelled from the spec: [has_char], an inline member of
    orcus/parser_base.hpp, a header outside the sources at hand; true iff
    [current < end]. *)
Definition has_char (c : parser_base) : bool := mp_char c <? mp_end c.

(** Modelled from the spec: [cur_char], of the same header; the byte at
    [current]. *)
Definition cur_char (c : parser_base) : byte := mem (mp_char c).

(** Modelled from the spec: [next], of the same header; advances
    [current] by one position. *)
Definition next (c : parser_base) : parser_base := set_char c (mp_char c + 1).

(** Modelled from the spec: [available_size], of the same header;
    [end - current]. *)
Definition available_size (c : parser_base) : Z := mp_end c - mp_char c.

(** Modelled from the spec: [is_in] of orcus/parser_global.hpp, the linear
    membership test of a byte in the [n] bytes at [chars]. *)
Definition is_in (ch : byte) (chars n : Z) : bool :=
  existsb (fun i => Byte.eqb ch (mem (chars + Z.of_nat i))) (seq 0 (Z.to_nat n)).


Definition next_char (c : parser_base) : byte := mem (mp_char c + 1).

Definition remaining_size (c : parser_base) : Z :=
  let n := available_size c in
  if n =? 0 then 0 else n - 1.

Definition offset (c : parser_base) : Z := mp_char c - mp_begin c.

(** *** skip *)

Definition skip_mode : Z :=
  Z.lor (Z.lor (Z.lor Intrin._SIDD_LEAST_SIGNIFICANT Intrin._SIDD_CMP_EQUAL_ANY)
               Intrin._SIDD_UBYTE_OPS)
        Intrin._SIDD_NEGATIVE_POLARITY.

(** The [while (n_total)] loop of the SSE4.2 variant; [n_total] is an
    [int], and its decrement is written with two's complement
    wrap-around. *)
Fixpoint skip_sse42_loop (fuel : nat) (match_ : Intrin.vec)
    (n_chars_to_skip : Z) (n_total : Z) (c : parser_base)
    : option parser_base :=
  match fuel with
  | O => None
  | S fuel' =>
      if n_total =? 0 then Some c
      else
        let char_block := Intrin._mm_loadu_si128 mem (mp_char c) in
        let n := Z.min 16 n_total in
        let r := Intrin._mm_cmpestri match_ (to_int n_chars_to_skip)
                                     char_block n skip_mode in
        if r =? 0 then Some c
        else
          let c := set_char c (mp_char c + r) in
          if r <? 16 then Some c
          else skip_sse42_loop fuel' match_ n_chars_to_skip
                               (to_int (n_total - 16)) c
  end.

Definition skip_sse42 (chars_to_skip n_chars_to_skip : Z) (c : parser_base)
    : option parser_base :=
  let match_ := Intrin._mm_loadu_si128 mem chars_to_skip in
  let n_total := to_int (available_size c) in
  skip_sse42_loop (S (Z.to_nat (available_size c))) match_ n_chars_to_skip
                  n_total c.

(** The [for (; has_char(); next())] loop of the scalar variant. *)
Fixpoint skip_scalar_loop (fuel : nat) (chars_to_skip n_chars_to_skip : Z)
    (c : parser_base) : option parser_base :=
  match fuel with
  | O => None
  | S fuel' =>
      if has_char c then
        if negb (is_in (mem (mp_char c)) chars_to_skip n_chars_to_skip)
        then Some c
        else skip_scalar_loop fuel' chars_to_skip n_chars_to_skip (next c)
      else Some c
  end.

Definition skip_scalar (chars_to_skip n_chars_to_skip : Z) (c : parser_base)
    : option parser_base :=
  skip_scalar_loop (S (Z.to_nat (available_size c)))
                   chars_to_skip n_chars_to_skip c.

Definition skip (f : cpu_features) (chars_to_skip n_chars_to_skip : Z)
    (c : parser_base) : option parser_base :=
  if ORCUS_CPU_FEATURES f && SSE4_2 f
  then skip_sse42 chars_to_skip n_chars_to_skip c
  else skip_scalar chars_to_skip n_chars_to_skip c.

(** *** skip_space_and_control *)

(** The AVX2 variant; [n_total] is a [size_t], [r] an [int]. *)
Fixpoint skip_space_and_control_avx2_loop (fuel : nat) (ws sb : Intrin.vec)
    (n_total : Z) (c : parser_base) : option parser_base :=
  match fuel with
  | O => None
  | S fuel' =>
      if n_total =? 0 then Some c
      else
        let char_block := Intrin._mm256_loadu_si256 mem (mp_char c) in
        let results := Intrin._mm256_cmpgt_epi8 char_block ws in
        let results :=
          Intrin._mm256_or_si256 results
            (Intrin._mm256_and_si256 char_block sb) in
        let r := Intrin._mm256_movemask_epi8 results in
        let r := Intrin._tzcnt_u32 r in
        let r := to_int (Z.min r n_total) in
        if r =? 0 then Some c
        else
          let c := set_char c (mp_char c + r) in
          if r <? 32 then Some c
          else skip_space_and_control_avx2_loop fuel' ws sb (n_total - 32) c
  end.

Definition skip_space_and_control_avx2 (c : parser_base) : option parser_base :=
  let n_total := available_size c in
  let ws := Intrin._mm256_set1_epi8 32 in
  let sb := Intrin._mm256_set1_epi8 0x80 in
  skip_space_and_control_avx2_loop (S (Z.to_nat (available_size c)))
                                   ws sb n_total c.

Definition skip_space_mode : Z :=
  Z.lor (Z.lor (Z.lor Intrin._SIDD_LEAST_SIGNIFICANT Intrin._SIDD_CMP_RANGES)
               Intrin._SIDD_UBYTE_OPS)
        Intrin._SIDD_NEGATIVE_POLARITY.

(** The first two bytes of the literal ["\0 "]: the range from NUL to
    space.  The load takes sixteen bytes; the length operand [2] makes the
    rest irrelevant ([cmpestri_space_tail]), and they are taken as zero
    here. *)
Definition nul_space : Intrin.vec := 0 :: 32 :: repeat 0 14%nat.

(** The SSE4.2 variant; [n_total] is a [size_t]. *)
Fixpoint skip_space_and_control_sse42_loop (fuel : nat) (match_ : Intrin.vec)
    (n_total : Z) (c : parser_base) : option parser_base :=
  match fuel with
  | O => None
  | S fuel' =>
      if n_total =? 0 then Some c
      else
        let char_block := Intrin._mm_loadu_si128 mem (mp_char c) in
        let n := to_int (Z.min 16 n_total) in
        let r := Intrin._mm_cmpestri match_ 2 char_block n skip_space_mode in
        if r =? 0 then Some c
        else
          let c := set_char c (mp_char c + r) in
          if r <? 16 then Some c
          else skip_space_and_control_sse42_loop fuel' match_ (n_total - 16) c
  end.

Definition skip_space_and_control_sse42 (c : parser_base) : option parser_base :=
  skip_space_and_control_sse42_loop (S (Z.to_nat (available_size c)))
                                    nul_space (available_size c) c.

(** The scalar variant. *)
Fixpoint skip_space_and_control_scalar_loop (fuel : nat) (c : parser_base)
    : option parser_base :=
  match fuel with
  | O => None
  | S fuel' =>
      if negb (mp_char c =? mp_end c) && (uchar (mem (mp_char c)) <=? 32)
      then skip_space_and_control_scalar_loop fuel' (set_char c (mp_char c + 1))
      else Some c
  end.

Definition skip_space_and_control_scalar (c : parser_base) : option parser_base :=
  skip_space_and_control_scalar_loop (S (Z.to_nat (available_size c))) c.

Definition skip_space_and_control (f : cpu_features) (c : parser_base)
    : option parser_base :=
  if ORCUS_CPU_FEATURES f && AVX2 f then skip_space_and_control_avx2 c
  else if ORCUS_CPU_FEATURES f && SSE4_2 f then skip_space_and_control_sse42 c
  else skip_space_and_control_scalar c.

(** *** parse_expected *)

Definition parse_expected_mode : Z :=
  Z.lor (Z.lor Intrin._SIDD_CMP_EQUAL_ORDERED Intrin._SIDD_UBYTE_OPS)
        Intrin._SIDD_BIT_MASK.

(** The body of the SSE4.2 variant, after the size check. *)
Definition parse_expected_sse42 (expected n_expected : Z) (c : parser_base)
    : bool * parser_base :=
  let v_expected := Intrin._mm_loadu_si128 mem expected in
  let v_char_block := Intrin._mm_loadu_si128 mem (mp_char c) in
  let res := Intrin._mm_cmpestrm v_expected (to_int n_expected)
                                 v_char_block (to_int n_expected)
                                 parse_expected_mode in
  let mask := Intrin._mm_cvtsi128_si32 res in
  let c := if negb (mask =? 0) then set_char c (mp_char c + n_expected) else c in
  (negb (mask =? 0), c).

(** The [for] loop of the scalar variant. *)
Fixpoint parse_expected_scalar_loop (fuel : nat) (i expected n_expected : Z)
    (c : parser_base) : option (bool * parser_base) :=
  match fuel with
  | O => None
  | S fuel' =>
      if i <? n_expected then
        if negb (Byte.eqb (cur_char c) (mem expected)) then Some (false, c)
        else parse_expected_scalar_loop fuel' (i + 1) (expected + 1)
                                        n_expected (next c)
      else Some (true, c)
  end.

Definition parse_expected_scalar (expected n_expected : Z) (c : parser_base)
    : option (bool * parser_base) :=
  parse_expected_scalar_loop (S (Z.to_nat n_expected)) 0 expected n_expected c.

Definition parse_expected (f : cpu_features) (expected n_expected : Z)
    (c : parser_base) : option (bool * parser_base) :=
  if n_expected >? available_size c then Some (false, c)
  else if ORCUS_CPU_FEATURES f && SSE4_2 f
       then Some (parse_expected_sse42 expected n_expected c)
       else parse_expected_scalar expected n_expected c.

(** *** parse_double *)

Definition parse_double (c : parser_base) : spec_float * parser_base :=
  let max_length := available_size c in
  let p := mp_char c in
  let '(val, p) := m_func_parse_numeric c mem p max_length in
  if p =? mp_char c then (quiet_NaN, c)
  else (val, set_char c p).

End Parser.

(** ** Specification-level notions *)

Section Runs.

Variable mem : memory.

(** Length of the longest run of bytes satisfying [P] that starts at
    address [p], capped at [k] bytes. *)
Fixpoint run (P : byte -> bool) (p : Z) (k : nat) : nat :=
  match k with
  | O => O
  | S k' => if P (mem p) then S (run P (p + 1) k') else O
  end.

(** The position [skip]-like scanning is meant to reach from [c]: the
    first byte at or after the cursor that fails [P], or the end. *)
Definition scan_to (P : byte -> bool) (c : parser_base) : parser_base :=
  set_char c (mp_char c + Z.of_nat (run P (mp_char c) (Z.to_nat (available_size c)))).

(** Membership in the first [k] of the sixteen bytes loaded from [chars]. *)
Definition in_loaded (chars : Z) (k : nat) (ch : byte) : bool :=
  existsb (fun i => (i <? k)%nat && (uchar (mem (chars + Z.of_nat i)) =? uchar ch))
          (seq 0 16).

(** The bytes [skip_space_and_control] is meant to skip. *)
Definition space_or_control (ch : byte) : bool := uchar ch <=? 32.

(** The [k] bytes at [p] are the [k] bytes at [expected]. *)
Definition prefix_match (expected p : Z) (k : nat) : bool :=
  forallb (fun i => Byte.eqb (mem (p + Z.of_nat i)) (mem (expected + Z.of_nat i)))
          (seq 0 k).

End Runs.

(** ** The cursor as a transition system *)

(** The contract of a numeric strategy: given [n] bytes at [p], the
    pointer it hands back lies in [[p, p + n]]. *)
Definition numeric_contract (pn : numeric_func) : Prop :=
  forall (mem : memory) (p n : Z), 0 <= n -> p <= snd (pn mem p n) <= p + n.

(** One call of a Skip, Match or Numeric operation that returns. *)
Inductive op_step (mem : memory) (f : cpu_features)
    : parser_base -> parser_base -> Prop :=
| step_skip (chars n : Z) (c c' : parser_base) :
    skip mem f chars n c = Some c' -> op_step mem f c c'
| step_skip_space_and_control (c c' : parser_base) :
    skip_space_and_control mem f c = Some c' -> op_step mem f c c'
| step_parse_expected (expected n : Z) (b : bool) (c c' : parser_base) :
    0 <= n ->
    parse_expected mem f expected n c = Some (b, c') -> op_step mem f c c'
| step_parse_double (c : parser_base) :
    op_step mem f c (snd (parse_double mem c)).

Inductive reachable (mem : memory) (f : cpu_features) (c0 : parser_base)
    : parser_base -> Prop :=
| reach_init : reachable mem f c0 c0
| reach_step (c c' : parser_base) :
    reachable mem f c0 c -> op_step mem f c c' -> reachable mem f c0 c'.

(** ** Concrete buffers *)

Module Examples.

(** The memory [rest] with the bytes of [s] written at address [base]. *)
Definition store (base : Z) (s : String.string) (rest : memory) : memory :=
  fun a =>
    let l := String.list_byte_of_string s in
    if (base <=? a) && (a <? base + Z.of_nat (length l))
    then nth (Z.to_nat (a - base)) l x00
    else rest a.

Definition zeros : memory := fun _ => x00.

Definition scalar_build : cpu_features :=
  {| ORCUS_CPU_FEATURES := false; SSE4_2 := false; AVX2 := false |}.
Definition sse42_build : cpu_features :=
  {| ORCUS_CPU_FEATURES := true; SSE4_2 := true; AVX2 := false |}.
Definition avx2_build : cpu_features :=
  {| ORCUS_CPU_FEATURES := true; SSE4_2 := true; AVX2 := true |}.

Definition is_digit (ch : byte) : bool :=
  (48 <=? uchar ch) && (uchar ch <=? 57).

Fixpoint decimal (mem : memory) (p : Z) (k : nat) (acc : Z) : Z :=
  match k with
  | O => acc
  | S k' => decimal mem (p + 1) k' (10 * acc + (uchar (mem p) - 48))
  end.

(** A numeric strategy for the examples: it consumes the leading decimal
    digits and returns their value. *)
Definition parse_digits : numeric_func :=
  fun mem p n =>
    let k := run mem is_digit p (Z.to_nat n) in
    let v := decimal mem p k 0 in
    (match v with
     | Z.pos m => S754_finite false m 0
     | _ => S754_zero false
     end, p + Z.of_nat k).

(** The position of the cursor after an operation. *)
Definition position (r : option parser_base) : option Z :=
  option_map mp_char r.

Definition outcome (r : option (bool * parser_base)) : option (bool * Z) :=
  option_map (fun x => (fst x, mp_char (snd x))) r.

Import String.StringSyntax.
Local Open Scope string_scope.

(** Buffers are written at address 0, tokens and skip-sets at 100. *)
Definition mem_ABCD : memory := store 0 "ABCD" (store 100 "AB" zeros).
Definition mem_AXCD : memory := store 0 "AXCD" (store 100 "AB" zeros).
Definition mem_TRUE123 : memory := store 0 "TRUE123" (store 100 "TRUE" zeros).

(** Sixteen bytes whose last is the first byte of the token. *)
Definition mem_tail : memory :=
  store 0 "XXXXXXXXXXXXXXXA" (store 100 "ABCDEFGHIJKLMNOP" zeros).

(** Seventeen bytes that differ from the token in the last one only. *)
Definition mem_long : memory :=
  store 0 "AAAAAAAAAAAAAAAAB" (store 100 "AAAAAAAAAAAAAAAAC" zeros).

(** A skip-set of seventeen bytes whose last is the byte of the buffer. *)
Definition mem_q : memory := store 0 "qqq" (store 100 "abcdefghijklmnopq" zeros).

(** Blanks, then [foo]; the skip-set holds a blank and a comma. *)
Definition mem_blanks : memory := store 0 "    foo" (store 100 " ," zeros).

(** Tabs everywhere, but for a high-bit byte at 35 and another at 37. *)
Definition mem_high : memory :=
  fun a => if a =? 35 then x80 else if a =? 37 then xc3 else x09.

(** Blanks everywhere. *)
Definition mem_spaces : memory := fun _ => x20.

Definition cursor (n : Z) : parser_base :=
  parser_base_ctor parse_digits 0 n false.

End Examples.

(** ** The parse error and its messages

    [parse_error] and the message builders of the same file.  A
    [std::string] is a [string]; a [char] written to the stream is an
    [ascii]; a nullable [const char*] is an optional string, the bytes
    before its terminator. *)

Module Diagnostics.

Import String.
Import String.StringSyntax.
Local Open Scope string_scope.

(** What [os << offset] writes for a [std::ptrdiff_t]: the decimal
    digits, after a minus sign when negative. *)
Definition decimal (z : Z) : string :=
  DecimalString.NilEmpty.string_of_int (Z.to_int z).

(** [build_offset_msg], of the anonymous namespace. *)
Definition build_offset_msg (offset : Z) : string :=
  let os := "" in
  let os := os ++ " (offset=" in
  let os := os ++ decimal offset in
  let os := os ++ ")" in
  os.

(** The message inherited from [general_error] ([m_msg], read by
    [what()]) and the member [m_offset]. *)
Record parse_error := {
  m_msg : string;
  m_offset : Z
}.

(** Modelled from the spec: [general_error::append_msg], of a file
    outside the sources at hand; it appends to the stored message. *)
Definition append_msg (e_msg : string) (s : string) : string := e_msg ++ s.

Section ParseError.

(** The message the two constructors of the base class [general_error]
    store, from a message and from a classification and a message; they
    are defined outside the sources at hand. *)
Variable general_error : string -> string.
Variable general_error_cls : string -> string -> string.

(** [parse_error::parse_error(msg, offset)]. *)
Definition parse_error_msg (msg : string) (offset : Z) : parse_error :=
  {| m_msg := append_msg (general_error msg) (build_offset_msg offset);
     m_offset := offset |}.

(** [parse_error::parse_error(cls, msg, offset)]. *)
Definition parse_error_cls (cls msg : string) (offset : Z) : parse_error :=
  {| m_msg := append_msg (general_error_cls cls msg) (build_offset_msg offset);
     m_offset := offset |}.

End ParseError.

(** [parse_error::offset]. *)
Definition parse_error_offset (e : parse_error) : Z := m_offset e.

(** What [os << s] writes for a [const char*] that was tested non-null,
    nothing when it is null. *)
Definition write_if (os : string) (s : option string) : string :=
  match s with
  | Some s => os ++ s
  | None => os
  end.

(** [parse_error::build_message(msg_before, c, msg_after)]. *)
Definition build_message (msg_before : option string) (c : Ascii.ascii)
    (msg_after : option string) : string :=
  let os := "" in
  let os := write_if os msg_before in
  let os := os ++ String c "" in
  let os := write_if os msg_after in
  os.

(** [std::string_view(p, n)]: the [n] bytes at [p]. *)
Definition string_view (mem : memory) (p n : Z) : string :=
  string_of_list_byte
    (map (fun i => mem (p + Z.of_nat i)) (seq 0 (Z.to_nat n))).

(** [parse_error::build_message(msg_before, p, n, msg_after)]. *)
Definition build_message_span (mem : memory) (msg_before : option string)
    (p n : Z) (msg_after : option string) : string :=
  let os := "" in
  let os := write_if os msg_before in
  let os := os ++ string_view mem p n in
  let os := write_if os msg_after in
  os.

End Diagnostics.

(** * Verification *)

(** ** Machine arithmetic *)

Lemma to_int_id (x : Z) : - 2 ^ 31 <= x < 2 ^ 31 -> to_int x = x.
Proof.
  intros H. unfold to_int. rewrite Z.mod_small; lia.
Qed.

Lemma to_int_range (x : Z) : - 2 ^ 31 <= to_int x < 2 ^ 31.
Proof.
  unfold to_int.
  pose proof (Z.mod_pos_bound (x + 2 ^ 31) (2 ^ 32) ltac:(lia)). lia.
Qed.

Lemma to_int_sub (x k : Z) : to_int (to_int x - k) = to_int (x - k).
Proof.
  unfold to_int. f_equal.
  replace ((x + 2 ^ 31) mod 2 ^ 32 - 2 ^ 31 - k + 2 ^ 31)
    with ((x + 2 ^ 31) mod 2 ^ 32 - k) by lia.
  rewrite Zminus_mod_idemp_l. f_equal. lia.
Qed.

Lemma to_uint_to_int (x : Z) : to_uint (to_int x) = x mod 2 ^ 32.
Proof.
  unfold to_uint, to_int.
  replace ((x + 2 ^ 31) mod 2 ^ 32 - 2 ^ 31)
    with ((x + 2 ^ 31) mod 2 ^ 32 + - 2 ^ 31) by lia.
  rewrite Zplus_mod_idemp_l. f_equal. lia.
Qed.

(** The window a narrowed, non-zero count of remaining bytes selects
    never exceeds the bytes that really remain. *)
Lemma str_len_window (rem : Z) :
  0 <= rem -> to_int rem <> 0 ->
  let lb := Intrin.str_len (Z.min 16 (to_int rem)) in
  (0 < lb <= 16)%nat /\ Z.of_nat lb <= rem /\
  (rem < 2 ^ 31 -> Z.of_nat lb = Z.min 16 rem).
Proof.
  intros Hrem Hnz lb. subst lb. unfold Intrin.str_len.
  assert (Hcong : exists k, rem = to_int rem + k * 2 ^ 32).
  { unfold to_int. exists ((rem + 2 ^ 31) / 2 ^ 32).
    pose proof (Z.div_mod (rem + 2 ^ 31) (2 ^ 32) ltac:(lia)). lia. }
  destruct Hcong as [k Hk].
  pose proof (to_int_range rem) as Hr.
  assert (Hsmall : rem < 2 ^ 31 -> to_int rem = rem)
    by (intros; apply to_int_id; lia).
  set (n := to_int rem) in *.
  rewrite Z2Nat.id by lia.
  repeat split; lia.
Qed.

Lemma uchar_range (ch : byte) : 0 <= uchar ch < 256.
Proof.
  unfold uchar. pose proof (Byte.to_N_bounded ch). lia.
Qed.

Lemma uchar_inj (a b : byte) : uchar a = uchar b -> a = b.
Proof.
  unfold uchar. intros H. apply N2Z.inj in H.
  pose proof (Byte.of_to_N a) as Ha. rewrite H, Byte.of_to_N in Ha.
  congruence.
Qed.

Lemma byte_eqb_uchar (a b : byte) : Byte.eqb a b = (uchar a =? uchar b).
Proof.
  destruct (Byte.eqb a b) eqn:E; symmetry.
  - apply Byte.byte_dec_bl in E. subst. apply Z.eqb_refl.
  - apply Z.eqb_neq. intros H. apply uchar_inj in H.
    apply Byte.eqb_false in E. contradiction.
Qed.

Lemma testbit7 (x : Z) : 0 <= x < 256 -> Z.testbit x 7 = (128 <=? x).
Proof.
  intros H. destruct (Z.testbit x 7) eqn:E; symmetry.
  - apply Z.testbit_true in E; [|lia]. apply Z.leb_le.
    change (2 ^ 7) with 128 in E.
    destruct (Z_lt_le_dec x 128) as [Hlt|]; [|assumption].
    rewrite Z.div_small in E by lia. discriminate.
  - apply Z.testbit_false in E; [|lia]. apply Z.leb_gt.
    change (2 ^ 7) with 128 in E.
    destruct (Z_lt_le_dec x 128) as [|Hge]; [assumption|].
    replace x with (1 * 128 + (x - 128)) in E by lia.
    rewrite Z.div_add_l in E by lia.
    rewrite (Z.div_small (x - 128)) in E by lia. discriminate.
Qed.

(** ** Runs *)

Section RunFacts.

Variable mem : memory.
Variable P : byte -> bool.

Lemma run_le (p : Z) (k : nat) : (run mem P p k <= k)%nat.
Proof.
  revert p. induction k as [|k IH]; intros p; simpl; [lia|].
  destruct (P (mem p)); [specialize (IH (p + 1))|]; lia.
Qed.

Lemma run_all (p : Z) (k i : nat) :
  (i < run mem P p k)%nat -> P (mem (p + Z.of_nat i)) = true.
Proof.
  revert p i. induction k as [|k IH]; intros p i; simpl; [lia|].
  destruct (P (mem p)) eqn:E; [|lia].
  destruct i as [|i]; intros H.
  - now rewrite Z.add_0_r.
  - replace (p + Z.of_nat (S i)) with (p + 1 + Z.of_nat i) by lia.
    apply IH. lia.
Qed.

Lemma run_stop (p : Z) (k : nat) :
  (run mem P p k < k)%nat -> P (mem (p + Z.of_nat (run mem P p k))) = false.
Proof.
  revert p. induction k as [|k IH]; intros p; simpl; [lia|].
  destruct (P (mem p)) eqn:E; intros H.
  - replace (p + Z.of_nat (S (run mem P (p + 1) k)))
      with (p + 1 + Z.of_nat (run mem P (p + 1) k)) by lia.
    apply IH. lia.
  - now rewrite Z.add_0_r.
Qed.

Lemma run_extend (p : Z) (a b : nat) :
  (run mem P p a < a)%nat -> (a <= b)%nat -> run mem P p b = run mem P p a.
Proof.
  revert p b. induction a as [|a IH]; intros p b; simpl; [lia|].
  destruct b as [|b]; [lia|]. simpl.
  destruct (P (mem p)); [|reflexivity].
  intros H1 H2. f_equal. apply IH; lia.
Qed.

Lemma run_split (p : Z) (a b : nat) :
  run mem P p a = a ->
  run mem P p (a + b) = (a + run mem P (p + Z.of_nat a) b)%nat.
Proof.
  revert p. induction a as [|a IH]; intros p; simpl.
  - intros _. now rewrite Z.add_0_r.
  - destruct (P (mem p)); [|discriminate].
    intros H. injection H as H. rewrite (IH _ H).
    do 3 f_equal. lia.
Qed.

Lemma run_min (p : Z) (a b : nat) :
  Nat.min (run mem P p a) b = run mem P p (Nat.min a b).
Proof.
  revert p b. induction a as [|a IH]; intros p b; [reflexivity|].
  destruct b as [|b].
  - now rewrite Nat.min_0_r.
  - rewrite <- Nat.succ_min_distr. cbn [run].
    destruct (P (mem p)); [|reflexivity].
    now rewrite <- Nat.succ_min_distr, IH.
Qed.

(** Where a run stopped, a new run is empty. *)
Lemma run_again (p : Z) (k : nat) :
  let r := run mem P p k in
  run mem P (p + Z.of_nat r) (k - r) = O.
Proof.
  intros r. subst r.
  destruct (Nat.eq_dec (run mem P p k) k) as [E|E].
  - rewrite E, Nat.sub_diag. reflexivity.
  - pose proof (run_le p k) as Hle.
    assert (Hlt : (run mem P p k < k)%nat) by lia.
    pose proof (run_stop p k Hlt) as Hs.
    destruct (k - run mem P p k)%nat; [reflexivity|]. simpl.
    now rewrite Hs.
Qed.

Lemma run_full (p : Z) (k : nat) :
  (forall a, P (mem a) = true) -> run mem P p k = k.
Proof.
  intros H. revert p. induction k as [|k IH]; intros p; simpl; [reflexivity|].
  now rewrite H, IH.
Qed.

End RunFacts.

Lemma run_ext (mem : memory) (P Q : byte -> bool) (p : Z) (k : nat) :
  (forall ch, P ch = Q ch) -> run mem P p k = run mem Q p k.
Proof.
  intros H. revert p. induction k as [|k IH]; intros p; simpl; [reflexivity|].
  now rewrite H, IH.
Qed.

(** ** Lists of lanes and bits *)

Lemma existsb_ext_in {A : Type} (f g : A -> bool) (l : list A) :
  (forall x, In x l -> f x = g x) -> existsb f l = existsb g l.
Proof.
  induction l as [|x l IH]; intros H; simpl; [reflexivity|].
  rewrite (H x (or_introl eq_refl)), IH; [reflexivity|].
  intros y Hy. apply H. now right.
Qed.

Lemma existsb_false {A : Type} (l : list A) :
  existsb (fun _ => false) l = false.
Proof. induction l; simpl; auto. Qed.

Lemma lane_load (w : nat) (mem : memory) (p : Z) (i : nat) :
  (i < w)%nat -> Intrin.lane (Intrin.load w mem p) i = uchar (mem (p + Z.of_nat i)).
Proof.
  intros H. unfold Intrin.lane, Intrin.load.
  rewrite (nth_indep _ 0 (uchar (mem (p + Z.of_nat 0))))
    by (rewrite length_map, length_seq; exact H).
  rewrite (map_nth (fun i => uchar (mem (p + Z.of_nat i)))).
  now rewrite seq_nth.
Qed.

(** The first lane that fails [P] or lies past the valid length [lb]. *)
Lemma lsb_index_run (mem : memory) (P : byte -> bool) (p : Z) (lb k s : nat) :
  Intrin.lsb_index
    (map (fun j => negb ((j <? lb)%nat && P (mem (p + Z.of_nat j)))) (seq s k))
  = run mem P (p + Z.of_nat s) (Nat.min k (lb - s)).
Proof.
  revert s. induction k as [|k IH]; intros s; simpl; [reflexivity|].
  destruct (Nat.ltb_spec s lb) as [Hlt|Hge]; simpl.
  - replace (lb - s)%nat with (S (lb - S s)) by lia. simpl.
    destruct (P (mem (p + Z.of_nat s))); simpl; [|reflexivity].
    rewrite IH. do 2 f_equal. lia.
  - replace (lb - s)%nat with O by lia. reflexivity.
Qed.

(** ** One window of each vectorized comparison *)

Lemma IntRes2_skip (mem : memory) (chars p : Z) (la lb j : nat) :
  (j < 16)%nat ->
  Intrin.IntRes2 skip_mode (Intrin.load 16 mem chars) la (Intrin.load 16 mem p) lb j
  = negb ((j <? lb)%nat && in_loaded mem chars la (mem (p + Z.of_nat j))).
Proof.
  intros Hj. unfold Intrin.IntRes2, Intrin.IntRes1.
  change (Z.testbit skip_mode 4) with true.
  change (Z.testbit skip_mode 5) with false.
  change (Intrin.aggregation skip_mode) with 0.
  cbv beta iota zeta. f_equal. unfold in_loaded.
  destruct (Nat.ltb_spec j lb) as [Hlt|Hge]; cbn [andb].
  - apply existsb_ext_in. intros i Hi. apply in_seq in Hi.
    unfold Intrin.BoolRes.
    change (Intrin.aggregation skip_mode) with 0.
    change (Intrin.element skip_mode) with (fun x : Z => x).
    cbv beta zeta.
    rewrite !lane_load by lia.
    destruct (Nat.leb_spec lb j); [lia|].
    destruct (Nat.leb_spec la i), (Nat.ltb_spec i la); try lia; reflexivity.
  - rewrite <- (existsb_false (seq 0 16)).
    apply existsb_ext_in. intros i Hi.
    unfold Intrin.BoolRes.
    change (Intrin.aggregation skip_mode) with 0.
    destruct (Nat.leb_spec lb j); [|lia].
    destruct (la <=? i)%nat; reflexivity.
Qed.

Lemma cmpestri_skip (mem : memory) (chars p la lb : Z) :
  Intrin._mm_cmpestri (Intrin._mm_loadu_si128 mem chars) la
                      (Intrin._mm_loadu_si128 mem p) lb skip_mode
  = Z.of_nat (run mem (in_loaded mem chars (Intrin.str_len la)) p
                  (Intrin.str_len lb)).
Proof.
  unfold Intrin._mm_cmpestri, Intrin.int_res2, Intrin._mm_loadu_si128.
  change (Z.testbit skip_mode 6) with false. cbv iota. f_equal.
  rewrite (map_ext_in _
    (fun j => negb ((j <? Intrin.str_len lb)%nat
                    && in_loaded mem chars (Intrin.str_len la)
                                 (mem (p + Z.of_nat j))))).
  - rewrite lsb_index_run. rewrite Z.add_0_r. f_equal.
    unfold Intrin.str_len. lia.
  - intros j Hj. apply in_seq in Hj. apply IntRes2_skip. lia.
Qed.

(** Only the first two lanes of the range operand count, whatever
    follows the literal in memory. *)
Lemma IntRes2_space (mem : memory) (tail : Intrin.vec) (p : Z) (lb j : nat) :
  (j < 16)%nat ->
  Intrin.IntRes2 skip_space_mode (0 :: 32 :: tail) 2 (Intrin.load 16 mem p) lb j
  = negb ((j <? lb)%nat && space_or_control (mem (p + Z.of_nat j))).
Proof.
  intros Hj. unfold Intrin.IntRes2, Intrin.IntRes1.
  change (Z.testbit skip_space_mode 4) with true.
  change (Z.testbit skip_space_mode 5) with false.
  change (Intrin.aggregation skip_space_mode) with 1.
  cbv beta iota zeta. f_equal. unfold Intrin.BoolRes.
  change (Intrin.aggregation skip_space_mode) with 1.
  change (Intrin.element skip_space_mode) with (fun x : Z => x).
  cbv beta zeta. rewrite lane_load by lia.
  unfold space_or_control.
  pose proof (uchar_range (mem (p + Z.of_nat j))) as Hr.
  set (y := uchar (mem (p + Z.of_nat j))) in *.
  destruct (Nat.leb_spec lb j), (Nat.ltb_spec j lb); try lia.
  - reflexivity.
  - cbn. rewrite !orb_false_r.
    destruct (Z.leb_spec 0 y); [reflexivity|lia].
Qed.

Lemma cmpestri_space_tail (mem : memory) (tail : Intrin.vec) (p lb : Z) :
  Intrin._mm_cmpestri (0 :: 32 :: tail) 2 (Intrin._mm_loadu_si128 mem p) lb
                      skip_space_mode
  = Z.of_nat (run mem space_or_control p (Intrin.str_len lb)).
Proof.
  unfold Intrin._mm_cmpestri, Intrin.int_res2, Intrin._mm_loadu_si128.
  change (Z.testbit skip_space_mode 6) with false. cbv iota. f_equal.
  change (Intrin.str_len 2) with 2%nat.
  rewrite (map_ext_in _
    (fun j => negb ((j <? Intrin.str_len lb)%nat
                    && space_or_control (mem (p + Z.of_nat j))))).
  - rewrite lsb_index_run. rewrite Z.add_0_r. f_equal.
    unfold Intrin.str_len. lia.
  - intros j Hj. apply in_seq in Hj. apply IntRes2_space. lia.
Qed.

Lemma cmpestri_space (mem : memory) (p lb : Z) :
  Intrin._mm_cmpestri nul_space 2 (Intrin._mm_loadu_si128 mem p) lb
                      skip_space_mode
  = Z.of_nat (run mem space_or_control p (Intrin.str_len lb)).
Proof. apply cmpestri_space_tail. Qed.

Lemma lanewise_repeat (f : Z -> Z -> Z) (l : Intrin.vec) (x : Z) (n : nat) :
  length l = n -> Intrin.lanewise f l (repeat x n) = map (fun y => f y x) l.
Proof.
  revert n. induction l as [|y l IH]; intros n H; simpl.
  - reflexivity.
  - destruct n as [|n]; [discriminate|]. simpl. f_equal.
    apply IH. now injection H.
Qed.

Lemma lanewise_map (f : Z -> Z -> Z) (g h : Z -> Z) (l : Intrin.vec) :
  Intrin.lanewise f (map g l) (map h l) = map (fun y => f (g y) (h y)) l.
Proof.
  induction l as [|y l IH]; simpl; [reflexivity|]. now rewrite IH.
Qed.

Lemma bits_to_Z_range (bits : list bool) :
  0 <= Intrin.bits_to_Z bits < 2 ^ Z.of_nat (length bits).
Proof.
  induction bits as [|b bits IH]; [simpl; lia|].
  change (Intrin.bits_to_Z (b :: bits))
    with (Z.b2z b + 2 * Intrin.bits_to_Z bits).
  change (length (b :: bits)) with (S (length bits)).
  rewrite Nat2Z.inj_succ, Z.pow_succ_r by lia.
  destruct b; simpl Z.b2z; lia.
Qed.

Lemma testbit_bits_to_Z (bits : list bool) (i : nat) :
  Z.testbit (Intrin.bits_to_Z bits) (Z.of_nat i) = nth i bits false.
Proof.
  revert i. induction bits as [|b bits IH]; intros i.
  - simpl. rewrite Z.testbit_0_l. now destruct i.
  - change (Intrin.bits_to_Z (b :: bits))
      with (Z.b2z b + 2 * Intrin.bits_to_Z bits).
    rewrite Z.add_comm. destruct i as [|i].
    + simpl nth. apply Z.testbit_0_r.
    + rewrite Nat2Z.inj_succ, Z.testbit_succ_r by lia. apply IH.
Qed.

Lemma map_nth_seq (bits : list bool) :
  map (fun i => nth i bits false) (seq 0 (length bits)) = bits.
Proof.
  induction bits as [|b bits IH]; simpl; [reflexivity|].
  f_equal. rewrite <- seq_shift, map_map. exact IH.
Qed.

(** The count of trailing zeros of the AVX2 mask is the length of the
    run of bytes at most the space character among the 32 loaded. *)
Lemma avx2_window (mem : memory) (p : Z) :
  Intrin._tzcnt_u32
    (Intrin._mm256_movemask_epi8
       (Intrin._mm256_or_si256
          (Intrin._mm256_cmpgt_epi8 (Intrin._mm256_loadu_si256 mem p)
                                    (Intrin._mm256_set1_epi8 32))
          (Intrin._mm256_and_si256 (Intrin._mm256_loadu_si256 mem p)
                                   (Intrin._mm256_set1_epi8 0x80))))
  = Z.of_nat (run mem space_or_control p 32).
Proof.
  set (char_block := Intrin._mm256_loadu_si256 mem p).
  unfold Intrin._mm256_set1_epi8.
  change (32 mod 256) with 32. change (0x80 mod 256) with 128.
  assert (Hlen : length char_block = 32%nat)
    by (unfold char_block, Intrin._mm256_loadu_si256, Intrin.load;
        now rewrite length_map, length_seq).
  unfold Intrin._mm256_cmpgt_epi8, Intrin._mm256_and_si256,
    Intrin._mm256_or_si256.
  rewrite !(lanewise_repeat _ _ _ 32 Hlen), lanewise_map.
  unfold Intrin._tzcnt_u32, Intrin._mm256_movemask_epi8. f_equal.
  set (bits := map (fun x : Z => Z.testbit x 7) _).
  assert (Hbits : length bits = 32%nat)
    by (unfold bits; now rewrite !length_map).
  rewrite to_uint_to_int.
  pose proof (bits_to_Z_range bits) as Hr. rewrite Hbits in Hr.
  rewrite Z.mod_small by exact Hr.
  rewrite (map_ext _ (fun i => nth i bits false))
    by (intros i; apply testbit_bits_to_Z).
  rewrite <- Hbits at 1. rewrite map_nth_seq.
  unfold bits, char_block, Intrin._mm256_loadu_si256, Intrin.load.
  rewrite !map_map.
  rewrite (map_ext_in _
    (fun j => negb ((j <? 32)%nat && space_or_control (mem (p + Z.of_nat j))))).
  - rewrite lsb_index_run. now rewrite Z.add_0_r.
  - intros j Hj. apply in_seq in Hj.
    destruct (Nat.ltb_spec j 32); [|lia]. cbn [andb].
    unfold space_or_control.
    pose proof (uchar_range (mem (p + Z.of_nat j))) as Hy.
    set (y := uchar (mem (p + Z.of_nat j))) in *.
    rewrite Z.lor_spec, Z.land_spec, (testbit7 y Hy).
    change (Z.testbit 128 7) with true. rewrite andb_true_r.
    unfold schar. change (32 <? 128) with true. cbv iota.
    rewrite !Z.gtb_ltb.
    destruct (Z.ltb_spec y 128), (Z.leb_spec 128 y), (Z.leb_spec y 32);
      try lia;
      match goal with
      | |- context [32 <? ?a] => destruct (Z.ltb_spec 32 a)
      end; try lia; reflexivity.
Qed.

(** ** The cursor record *)

Lemma set_char_id (c : parser_base) : set_char c (mp_char c) = c.
Proof. now destruct c. Qed.

Lemma set_char_twice (c : parser_base) (p q : Z) :
  set_char (set_char c p) q = set_char c q.
Proof. reflexivity. Qed.

Lemma scan_to_empty (mem : memory) (P : byte -> bool) (c : parser_base) :
  run mem P (mp_char c) (Z.to_nat (available_size c)) = O ->
  scan_to mem P c = c.
Proof.
  intros H. unfold scan_to. rewrite H, Z.add_0_r. apply set_char_id.
Qed.

(** What one window of width [W] tells about the whole run over [k]
    remaining bytes. *)
Lemma window_cases (mem : memory) (P : byte -> bool) (p : Z) (W k : nat) :
  let r := run mem P p (Nat.min W k) in
  ((r < W)%nat -> run mem P p k = r) /\
  (r = W -> (W <= k)%nat /\
            run mem P p k = (W + run mem P (p + Z.of_nat W) (k - W))%nat).
Proof.
  intros r. pose proof (run_le mem P p (Nat.min W k)) as Hle. fold r in Hle.
  split.
  - intros Hlt. destruct (Nat.eq_dec r (Nat.min W k)) as [E|E].
    + replace k with (Nat.min W k) by lia. reflexivity.
    + apply run_extend; unfold r in *; lia.
  - intros E. assert (HW : (W <= k)%nat) by lia. split; [exact HW|].
    replace k with (W + (k - W))%nat at 1 by lia.
    apply run_split. unfold r in E. now rewrite Nat.min_l in E by lia.
Qed.

(** ** The loops *)

Section Loops.

Variable mem : memory.

Lemma skip_scalar_loop_spec (chars n : Z) : forall fuel c,
  (Z.to_nat (available_size c) < fuel)%nat ->
  skip_scalar_loop mem fuel chars n c
  = Some (scan_to mem (fun ch => is_in mem ch chars n) c).
Proof.
  induction fuel as [|fuel IH]; intros c Hf; [lia|].
  cbn [skip_scalar_loop]. unfold has_char.
  destruct (Z.ltb_spec (mp_char c) (mp_end c)) as [Hlt|Hge].
  - unfold scan_to, available_size in *.
    destruct (Z.to_nat (mp_end c - mp_char c)) as [|k] eqn:Ek; [lia|].
    cbn [run].
    destruct (is_in mem (mem (mp_char c)) chars n) eqn:Ein; cbn [negb].
    + rewrite IH by (simpl; lia).
      unfold next. rewrite set_char_twice. simpl.
      replace (Z.to_nat (mp_end c - (mp_char c + 1))) with k by lia.
      do 2 f_equal. lia.
    + now rewrite Z.add_0_r, set_char_id.
  - rewrite scan_to_empty; [reflexivity|]. unfold available_size.
    now replace (Z.to_nat (mp_end c - mp_char c)) with O by lia.
Qed.

Lemma skip_space_and_control_scalar_loop_spec : forall fuel c,
  mp_char c <= mp_end c ->
  (Z.to_nat (available_size c) < fuel)%nat ->
  skip_space_and_control_scalar_loop mem fuel c
  = Some (scan_to mem space_or_control c).
Proof.
  induction fuel as [|fuel IH]; intros c Hle Hf; [lia|].
  cbn [skip_space_and_control_scalar_loop].
  destruct (Z.eqb_spec (mp_char c) (mp_end c)) as [He|Hne]; cbn [negb andb].
  - rewrite scan_to_empty; [reflexivity|]. unfold available_size.
    now replace (Z.to_nat (mp_end c - mp_char c)) with O by lia.
  - unfold scan_to, available_size in *.
    destruct (Z.to_nat (mp_end c - mp_char c)) as [|k] eqn:Ek; [lia|].
    cbn [run]. unfold space_or_control at 1.
    destruct (uchar (mem (mp_char c)) <=? 32).
    + rewrite IH by (simpl; lia).
      rewrite set_char_twice. simpl.
      replace (Z.to_nat (mp_end c - (mp_char c + 1))) with k by lia.
      do 2 f_equal. lia.
    + now rewrite Z.add_0_r, set_char_id.
Qed.

Lemma skip_space_and_control_avx2_loop_spec : forall fuel c n_total,
  n_total = available_size c -> 0 <= n_total ->
  (Z.to_nat n_total < fuel)%nat ->
  skip_space_and_control_avx2_loop mem fuel (Intrin._mm256_set1_epi8 32)
    (Intrin._mm256_set1_epi8 0x80) n_total c
  = Some (scan_to mem space_or_control c).
Proof.
  induction fuel as [|fuel IH]; intros c n_total Hn H0 Hf; [lia|].
  cbn [skip_space_and_control_avx2_loop].
  destruct (Z.eqb_spec n_total 0) as [Hz|Hnz].
  - rewrite scan_to_empty; [reflexivity|]. now rewrite <- Hn, Hz.
  - rewrite avx2_window.
    replace (Z.min (Z.of_nat (run mem space_or_control (mp_char c) 32)) n_total)
      with (Z.of_nat (Nat.min (run mem space_or_control (mp_char c) 32)
                              (Z.to_nat n_total))) by lia.
    rewrite run_min.
    pose proof (run_le mem space_or_control (mp_char c)
                       (Nat.min 32 (Z.to_nat n_total))) as Hle.
    destruct (window_cases mem space_or_control (mp_char c) 32
                           (Z.to_nat n_total)) as [Hlt Heq].
    set (r := run mem space_or_control (mp_char c)
                  (Nat.min 32 (Z.to_nat n_total))) in *.
    rewrite to_int_id by lia.
    unfold scan_to at 1. rewrite <- Hn.
    destruct (Z.eqb_spec (Z.of_nat r) 0) as [Hr0|Hr0].
    + rewrite Hlt by lia. rewrite Hr0, Z.add_0_r. now rewrite set_char_id.
    + destruct (Z.ltb_spec (Z.of_nat r) 32) as [Hr|Hr].
      * now rewrite Hlt by lia.
      * destruct Heq as [HW Hrun]; [lia|].
        rewrite IH by (unfold available_size in *; simpl; lia).
        unfold scan_to, available_size in *. rewrite set_char_twice.
        cbn [set_char mp_char mp_end]. rewrite Hrun.
        replace (Z.to_nat (mp_end c - (mp_char c + Z.of_nat r)))
          with (Z.to_nat n_total - 32)%nat by lia.
        replace (Z.of_nat r) with (Z.of_nat 32) by lia.
        do 2 f_equal. lia.
Qed.

Lemma skip_space_and_control_sse42_loop_spec : forall fuel c n_total,
  n_total = available_size c -> 0 <= n_total ->
  (Z.to_nat n_total < fuel)%nat ->
  skip_space_and_control_sse42_loop mem fuel nul_space n_total c
  = Some (scan_to mem space_or_control c).
Proof.
  induction fuel as [|fuel IH]; intros c n_total Hn H0 Hf; [lia|].
  cbn [skip_space_and_control_sse42_loop].
  destruct (Z.eqb_spec n_total 0) as [Hz|Hnz].
  - rewrite scan_to_empty; [reflexivity|]. now rewrite <- Hn, Hz.
  - rewrite cmpestri_space.
    rewrite to_int_id by lia.
    replace (Intrin.str_len (Z.min 16 n_total))
      with (Nat.min 16 (Z.to_nat n_total)) by (unfold Intrin.str_len; lia).
    pose proof (run_le mem space_or_control (mp_char c)
                       (Nat.min 16 (Z.to_nat n_total))) as Hle.
    destruct (window_cases mem space_or_control (mp_char c) 16
                           (Z.to_nat n_total)) as [Hlt Heq].
    set (r := run mem space_or_control (mp_char c)
                  (Nat.min 16 (Z.to_nat n_total))) in *.
    unfold scan_to at 1. rewrite <- Hn.
    destruct (Z.eqb_spec (Z.of_nat r) 0) as [Hr0|Hr0].
    + rewrite Hlt by lia. rewrite Hr0, Z.add_0_r. now rewrite set_char_id.
    + destruct (Z.ltb_spec (Z.of_nat r) 16) as [Hr|Hr].
      * now rewrite Hlt by lia.
      * destruct Heq as [HW Hrun]; [lia|].
        rewrite IH by (unfold available_size in *; simpl; lia).
        unfold scan_to, available_size in *. rewrite set_char_twice.
        cbn [set_char mp_char mp_end]. rewrite Hrun.
        replace (Z.to_nat (mp_end c - (mp_char c + Z.of_nat r)))
          with (Z.to_nat n_total - 16)%nat by lia.
        replace (Z.of_nat r) with (Z.of_nat 16) by lia.
        do 2 f_equal. lia.
Qed.

(** The SSE4.2 [skip] loop keeps its count of remaining bytes in an
    [int]: it always returns, it scans a run of members of the loaded
    set capped at some [k] bytes that remain, and [k] is all of them
    when their number fits the [int]. *)
Lemma skip_sse42_loop_spec (chars n_chars : Z) : forall fuel c n_total,
  mp_char c <= mp_end c ->
  n_total = to_int (available_size c) ->
  (Z.to_nat (available_size c) < fuel)%nat ->
  exists k : nat,
    (k <= Z.to_nat (available_size c))%nat /\
    (available_size c < 2 ^ 31 -> k = Z.to_nat (available_size c)) /\
    skip_sse42_loop mem fuel (Intrin._mm_loadu_si128 mem chars) n_chars
                    n_total c
    = Some (set_char c
              (mp_char c
               + Z.of_nat (run mem (in_loaded mem chars
                                      (Intrin.str_len (to_int n_chars)))
                               (mp_char c) k))).
Proof.
  set (P := in_loaded mem chars (Intrin.str_len (to_int n_chars))).
  induction fuel as [|fuel IH]; intros c n_total Hle Hn Hf; [lia|].
  cbn [skip_sse42_loop]. unfold available_size in *.
  set (rem := mp_end c - mp_char c) in *.
  destruct (Z.eqb_spec n_total 0) as [Hz|Hnz].
  - exists O. repeat split; [lia| |].
    + intros Hsmall. rewrite to_int_id in Hn by lia. lia.
    + cbn [run]. now rewrite Z.add_0_r, set_char_id.
  - rewrite cmpestri_skip. fold P. subst n_total.
    destruct (str_len_window rem ltac:(lia) Hnz) as (Hlb & Hlbrem & Hlbsmall).
    set (lb := Intrin.str_len (Z.min 16 (to_int rem))) in *.
    pose proof (run_le mem P (mp_char c) lb) as Hrle.
    destruct (Z.eqb_spec (Z.of_nat (run mem P (mp_char c) lb)) 0) as [Hr0|Hr0].
    + exists (Z.to_nat rem). repeat split; [lia|].
      rewrite (run_extend mem P (mp_char c) lb (Z.to_nat rem)) by lia.
      now rewrite Hr0, Z.add_0_r, set_char_id.
    + destruct (Z.ltb_spec (Z.of_nat (run mem P (mp_char c) lb)) 16) as [Hr|Hr].
      * destruct (Nat.eq_dec (run mem P (mp_char c) lb) lb) as [E|E].
        -- exists lb. repeat split; lia.
        -- exists (Z.to_nat rem). repeat split; [lia|].
           now rewrite (run_extend mem P (mp_char c) lb (Z.to_nat rem)) by lia.
      * assert (Hlb16 : lb = 16%nat) by lia.
        assert (Hrun : run mem P (mp_char c) 16 = 16%nat)
          by (rewrite <- Hlb16 at 1; lia).
        rewrite Hlb16, Hrun.
        destruct (IH (set_char c (mp_char c + Z.of_nat 16))
                     (to_int (to_int rem - 16)))
          as (k & Hk & Hksmall & Hloop).
        { simpl. lia. }
        { rewrite to_int_sub. f_equal. simpl. unfold rem. lia. }
        { simpl. lia. }
        exists (16 + k)%nat. simpl in Hk, Hksmall. repeat split; [lia|lia|].
        rewrite Hloop, set_char_twice. cbn [set_char mp_char].
        rewrite (run_split mem P (mp_char c) 16 k Hrun).
        do 2 f_equal. lia.
Qed.

End Loops.

(** ** The operations *)

Section Operations.

Variable mem : memory.

(** The set the SSE4.2 [skip] compares against is the caller's set when
    that has at most sixteen bytes. *)
Lemma in_loaded_is_in (chars n : Z) (ch : byte) :
  0 <= n <= 16 ->
  in_loaded mem chars (Intrin.str_len (to_int n)) ch = is_in mem ch chars n.
Proof.
  intros Hn. rewrite to_int_id by lia.
  replace (Intrin.str_len n) with (Z.to_nat n) by (unfold Intrin.str_len; lia).
  unfold in_loaded, is_in.
  replace 16%nat with (Z.to_nat n + (16 - Z.to_nat n))%nat at 1 by lia.
  rewrite seq_app, existsb_app.
  rewrite (existsb_ext_in _ (fun _ => false) (seq _ (16 - Z.to_nat n))).
  - rewrite existsb_false, orb_false_r. apply existsb_ext_in.
    intros i Hi. apply in_seq in Hi.
    destruct (Nat.ltb_spec i (Z.to_nat n)); [|lia]. cbn [andb].
    rewrite byte_eqb_uchar. apply Z.eqb_sym.
  - intros i Hi. apply in_seq in Hi.
    destruct (Nat.ltb_spec i (Z.to_nat n)); [lia|]. reflexivity.
Qed.

Lemma skip_scalar_spec (chars n : Z) (c : parser_base) :
  skip_scalar mem chars n c
  = Some (scan_to mem (fun ch => is_in mem ch chars n) c).
Proof. apply skip_scalar_loop_spec. lia. Qed.

Lemma skip_sse42_spec (chars n : Z) (c : parser_base) :
  cursor_inv c -> 0 <= n <= 16 -> available_size c < 2 ^ 31 ->
  skip_sse42 mem chars n c
  = Some (scan_to mem (fun ch => is_in mem ch chars n) c).
Proof.
  intros [_ Hle] Hn Hsmall. unfold skip_sse42.
  destruct (skip_sse42_loop_spec mem chars n
              (S (Z.to_nat (available_size c))) c
              (to_int (available_size c)) Hle eq_refl ltac:(lia))
    as (k & _ & Hk & Hloop).
  rewrite Hloop, (Hk Hsmall). unfold scan_to. do 4 f_equal.
  apply run_ext. intros ch. now apply in_loaded_is_in.
Qed.

(** Whatever the set and the size of the buffer, the SSE4.2 [skip]
    returns and leaves the cursor inside the buffer. *)
Lemma skip_sse42_bounds (chars n : Z) (c : parser_base) :
  cursor_inv c ->
  exists q, skip_sse42 mem chars n c = Some (set_char c q) /\
            mp_char c <= q <= mp_end c.
Proof.
  intros [_ Hle]. unfold skip_sse42.
  destruct (skip_sse42_loop_spec mem chars n
              (S (Z.to_nat (available_size c))) c
              (to_int (available_size c)) Hle eq_refl ltac:(lia))
    as (k & Hk & _ & Hloop).
  eexists. split; [exact Hloop|].
  pose proof (run_le mem (in_loaded mem chars (Intrin.str_len (to_int n)))
                     (mp_char c) k).
  unfold available_size in *. lia.
Qed.

Lemma skip_space_and_control_spec (f : cpu_features) (c : parser_base) :
  cursor_inv c ->
  skip_space_and_control mem f c = Some (scan_to mem space_or_control c).
Proof.
  intros [_ Hle]. unfold skip_space_and_control.
  assert (H0 : 0 <= available_size c) by (unfold available_size; lia).
  destruct (ORCUS_CPU_FEATURES f && AVX2 f);
    [|destruct (ORCUS_CPU_FEATURES f && SSE4_2 f)].
  - apply skip_space_and_control_avx2_loop_spec; [reflexivity|lia|lia].
  - apply skip_space_and_control_sse42_loop_spec; [reflexivity|lia|lia].
  - apply skip_space_and_control_scalar_loop_spec; [lia|lia].
Qed.

(** *** Where a scan ends *)

Section ScanTo.

Variable P : byte -> bool.
Variable c : parser_base.
Hypothesis Hinv : cursor_inv c.

Lemma scan_to_inv : cursor_inv (scan_to mem P c).
Proof.
  pose proof (run_le mem P (mp_char c) (Z.to_nat (available_size c))).
  unfold cursor_inv, scan_to, available_size in *. simpl. lia.
Qed.

Lemma scan_to_bounds :
  mp_char c <= mp_char (scan_to mem P c) <= mp_end c.
Proof.
  pose proof (run_le mem P (mp_char c) (Z.to_nat (available_size c))).
  unfold cursor_inv, scan_to, available_size in *. simpl. lia.
Qed.

Lemma scan_to_members (a : Z) :
  mp_char c <= a < mp_char (scan_to mem P c) -> P (mem a) = true.
Proof.
  unfold scan_to. simpl. intros Ha.
  replace a with (mp_char c + Z.of_nat (Z.to_nat (a - mp_char c))) by lia.
  apply run_all with (k := Z.to_nat (available_size c)). lia.
Qed.

Lemma scan_to_stop :
  mp_char (scan_to mem P c) = mp_end c \/
  P (mem (mp_char (scan_to mem P c))) = false.
Proof.
  pose proof (run_le mem P (mp_char c) (Z.to_nat (available_size c))) as Hle.
  unfold scan_to. simpl.
  destruct (Nat.eq_dec (run mem P (mp_char c) (Z.to_nat (available_size c)))
                       (Z.to_nat (available_size c))) as [E|E].
  - left. rewrite E. unfold cursor_inv, available_size in *. lia.
  - right. apply run_stop. lia.
Qed.

Lemma scan_to_idem : scan_to mem P (scan_to mem P c) = scan_to mem P c.
Proof.
  apply scan_to_empty.
  pose proof (run_le mem P (mp_char c) (Z.to_nat (available_size c))) as Hle.
  pose proof (run_again mem P (mp_char c) (Z.to_nat (available_size c))) as H.
  cbv zeta in H. unfold scan_to, available_size in *. simpl.
  replace (Z.to_nat (mp_end c - (mp_char c + Z.of_nat
            (run mem P (mp_char c) (Z.to_nat (mp_end c - mp_char c))))))
    with (Z.to_nat (mp_end c - mp_char c)
          - run mem P (mp_char c) (Z.to_nat (mp_end c - mp_char c)))%nat
    by lia.
  exact H.
Qed.

End ScanTo.

End Operations.

(** ** The token matcher *)

Section TokenMatcher.

Variable mem : memory.

Lemma parse_expected_scalar_loop_spec : forall fuel i expected n c,
  0 <= i <= n -> (Z.to_nat (n - i) < fuel)%nat ->
  exists (b : bool) (j : Z),
    0 <= j <= n - i /\
    parse_expected_scalar_loop mem fuel i expected n c
    = Some (b, set_char c (mp_char c + j)) /\
    (forall t, 0 <= t < j -> mem (mp_char c + t) = mem (expected + t)) /\
    (if b then j = n - i else mem (mp_char c + j) <> mem (expected + j)).
Proof.
  induction fuel as [|fuel IH]; intros i expected n c Hi Hf; [lia|].
  cbn [parse_expected_scalar_loop].
  destruct (Z.ltb_spec i n) as [Hlt|Hge].
  - unfold cur_char.
    destruct (Byte.eqb (mem (mp_char c)) (mem expected)) eqn:E; cbn [negb].
    + apply Byte.byte_dec_bl in E.
      destruct (IH (i + 1) (expected + 1) n (next c) ltac:(lia) ltac:(lia))
        as (b & j & Hj & Hloop & Heq & Hb).
      exists b, (j + 1). unfold next in *. cbn [set_char mp_char] in *.
      rewrite set_char_twice in Hloop.
      repeat split; try lia.
      * rewrite Hloop. do 3 f_equal. lia.
      * intros t Ht. destruct (Z.eq_dec t 0) as [->|Hne].
        -- now rewrite !Z.add_0_r.
        -- specialize (Heq (t - 1) ltac:(lia)).
           replace (mp_char c + 1 + (t - 1)) with (mp_char c + t) in Heq by lia.
           replace (expected + 1 + (t - 1)) with (expected + t) in Heq by lia.
           exact Heq.
      * destruct b.
        -- lia.
        -- replace (mp_char c + (j + 1)) with (mp_char c + 1 + j) by lia.
           replace (expected + (j + 1)) with (expected + 1 + j) by lia.
           exact Hb.
    + exists false, 0. rewrite !Z.add_0_r, set_char_id.
      repeat split; try lia. now apply Byte.eqb_false.
  - exists true, 0. rewrite Z.add_0_r, set_char_id.
    repeat split; lia.
Qed.

(** The scalar variant: a success consumes exactly the expected bytes; a
    failure leaves the cursor on the first byte that differs. *)
Lemma parse_expected_scalar_spec (expected n : Z) (c : parser_base) :
  0 <= n ->
  exists (b : bool) (j : Z),
    0 <= j <= n /\
    parse_expected_scalar mem expected n c
    = Some (b, set_char c (mp_char c + j)) /\
    (forall t, 0 <= t < j -> mem (mp_char c + t) = mem (expected + t)) /\
    (if b then j = n else mem (mp_char c + j) <> mem (expected + j)).
Proof.
  intros Hn.
  destruct (parse_expected_scalar_loop_spec (S (Z.to_nat n)) 0 expected n c
              ltac:(lia) ltac:(lia)) as (b & j & Hj & Hloop & Heq & Hb).
  exists b, j. rewrite Z.sub_0_r in *. auto.
Qed.

(** The SSE4.2 variant moves the cursor only when it reports a match. *)
Lemma parse_expected_sse42_failure (expected n : Z) (c c' : parser_base) :
  parse_expected_sse42 mem expected n c = (false, c') -> c' = c.
Proof.
  unfold parse_expected_sse42.
  destruct (Intrin._mm_cvtsi128_si32 _ =? 0); cbn [negb]; congruence.
Qed.

Lemma parse_expected_sse42_moves (expected n : Z) (c : parser_base) :
  snd (parse_expected_sse42 mem expected n c) = c \/
  snd (parse_expected_sse42 mem expected n c) = set_char c (mp_char c + n).
Proof.
  unfold parse_expected_sse42.
  destruct (Intrin._mm_cvtsi128_si32 _ =? 0); cbn [negb snd]; auto.
Qed.

(** The ordered comparison of two empty strings sets every bit of the
    mask. *)
Lemma cmpestrm_empty (a b : Intrin.vec) :
  Intrin._mm_cvtsi128_si32
    (Intrin._mm_cmpestrm a (to_int 0) b (to_int 0) parse_expected_mode)
  = 65535.
Proof. reflexivity. Qed.

(** *** The ordered comparison of the SSE4.2 variant

    For a token of one to fifteen bytes the mask of PCMPESTRM in the
    equal-ordered mode has at most its lowest bit set, and has it exactly
    when the token is a prefix of the window.  (With sixteen bytes the
    higher bits report partial matches at the end of the window.) *)

Lemma forallb_false_at {A : Type} (g : A -> bool) (l : list A) (x : A) :
  In x l -> g x = false -> forallb g l = false.
Proof.
  intros Hin Hx. destruct (forallb g l) eqn:E; [|reflexivity].
  rewrite forallb_forall in E. rewrite (E x Hin) in Hx. discriminate.
Qed.

Lemma forallb_ext_in {A : Type} (g h : A -> bool) (l : list A) :
  (forall x, In x l -> g x = h x) -> forallb g l = forallb h l.
Proof.
  induction l as [|x l IH]; intros H; simpl; [reflexivity|].
  rewrite (H x (or_introl eq_refl)), IH; [reflexivity|].
  intros y Hy. apply H. now right.
Qed.

Lemma map_all_false {A : Type} (g : A -> bool) (l : list A) :
  (forall x, In x l -> g x = false) -> map g l = repeat false (length l).
Proof.
  induction l as [|x l IH]; intros H; simpl; [reflexivity|].
  rewrite (H x (or_introl eq_refl)), IH; [reflexivity|].
  intros y Hy. apply H. now right.
Qed.

Lemma prefix_match_true (expected p : Z) (k : nat) :
  prefix_match mem expected p k = true <->
  forall t, 0 <= t < Z.of_nat k -> mem (p + t) = mem (expected + t).
Proof.
  unfold prefix_match. rewrite forallb_forall. split.
  - intros H t Ht.
    specialize (H (Z.to_nat t) ltac:(apply in_seq; lia)).
    apply Byte.byte_dec_bl in H. now rewrite Z2Nat.id in H by lia.
  - intros H i Hi. apply in_seq in Hi. apply Byte.byte_dec_lb.
    apply H. lia.
Qed.

Lemma IntRes1_ordered_tail (a b : Intrin.vec) (k j : nat) :
  (1 <= k <= 15)%nat -> (1 <= j < 16)%nat ->
  Intrin.IntRes1 parse_expected_mode a k b k j = false.
Proof.
  intros Hk Hj. unfold Intrin.IntRes1.
  change (Intrin.aggregation parse_expected_mode) with 3. cbv beta iota zeta.
  apply (forallb_false_at _ _ (if (j <? k)%nat then (k - j)%nat else O)).
  - apply in_seq. destruct (Nat.ltb_spec j k); lia.
  - unfold Intrin.BoolRes.
    destruct (Nat.ltb_spec j k).
    + destruct (Nat.leb_spec k (k - j)); [lia|].
      destruct (Nat.leb_spec k (j + (k - j))); [reflexivity|lia].
    + destruct (Nat.leb_spec k 0); [lia|].
      destruct (Nat.leb_spec k (j + 0)); [reflexivity|lia].
Qed.

Lemma IntRes1_ordered_head (expected p : Z) (k : nat) :
  (k <= 16)%nat ->
  Intrin.IntRes1 parse_expected_mode (Intrin.load 16 mem expected) k
                 (Intrin.load 16 mem p) k 0
  = prefix_match mem expected p k.
Proof.
  intros Hk. unfold Intrin.IntRes1, prefix_match.
  change (Intrin.aggregation parse_expected_mode) with 3. cbv beta iota zeta.
  change (16 - 0)%nat with 16%nat.
  replace 16%nat with (k + (16 - k))%nat at 1 by lia.
  rewrite seq_app, forallb_app.
  rewrite (proj2 (forallb_forall _ (seq (0 + k) (16 - k)))).
  - rewrite andb_true_r. apply forallb_ext_in.
    intros i Hi. apply in_seq in Hi. unfold Intrin.BoolRes.
    change (Intrin.aggregation parse_expected_mode) with 3.
    change (Intrin.element parse_expected_mode) with (fun x : Z => x).
    cbv beta zeta. rewrite !lane_load by lia.
    destruct (Nat.leb_spec k i); [lia|].
    destruct (Nat.leb_spec k (0 + i)); [lia|].
    change (3 =? 1) with false. cbv iota.
    rewrite byte_eqb_uchar. apply Z.eqb_sym.
  - intros i Hi. apply in_seq in Hi. unfold Intrin.BoolRes.
    destruct (Nat.leb_spec k i); [|lia].
    change (Intrin.aggregation parse_expected_mode) with 3.
    destruct (k <=? 0 + i)%nat; reflexivity.
Qed.

Lemma cmpestrm_ordered_mask (expected p n : Z) :
  1 <= n <= 15 ->
  Intrin._mm_cvtsi128_si32
    (Intrin._mm_cmpestrm (Intrin._mm_loadu_si128 mem expected) (to_int n)
                         (Intrin._mm_loadu_si128 mem p) (to_int n)
                         parse_expected_mode)
  = Z.b2z (prefix_match mem expected p (Z.to_nat n)).
Proof.
  intros Hn. rewrite to_int_id by lia.
  unfold Intrin._mm_cmpestrm, Intrin.int_res2, Intrin._mm_loadu_si128.
  change (Z.testbit parse_expected_mode 6) with false. cbv iota zeta.
  replace (Intrin.str_len n) with (Z.to_nat n) by (unfold Intrin.str_len; lia).
  set (k := Z.to_nat n).
  change (seq 0 16) with (0%nat :: seq 1 15). cbn [map].
  rewrite (map_all_false _ (seq 1 15)).
  - unfold Intrin.IntRes2 at 1.
    change (Z.testbit parse_expected_mode 4) with false. cbv iota zeta.
    rewrite IntRes1_ordered_head by lia.
    destruct (prefix_match mem expected p k); reflexivity.
  - intros j Hj. apply in_seq in Hj. unfold Intrin.IntRes2.
    change (Z.testbit parse_expected_mode 4) with false. cbv iota zeta.
    apply IntRes1_ordered_tail; lia.
Qed.

(** The SSE4.2 variant on a token of one to fifteen bytes: it reports a
    match exactly when the bytes at the cursor are the expected ones, and
    then advances by the length of the token. *)
Lemma parse_expected_sse42_exact (expected n : Z) (c : parser_base) :
  1 <= n <= 15 ->
  parse_expected_sse42 mem expected n c
  = if prefix_match mem expected (mp_char c) (Z.to_nat n)
    then (true, set_char c (mp_char c + n))
    else (false, c).
Proof.
  intros Hn. unfold parse_expected_sse42.
  rewrite cmpestrm_ordered_mask by exact Hn.
  destruct (prefix_match mem expected (mp_char c) (Z.to_nat n)); reflexivity.
Qed.

(** Where the token matcher is sound: in the scalar variant for every
    token, in the SSE4.2 variant for tokens of at most fifteen bytes, a
    reported match has consumed exactly the expected bytes. *)
Lemma parse_expected_success (f : cpu_features) (expected n : Z)
    (c c' : parser_base) :
  0 <= n ->
  (ORCUS_CPU_FEATURES f && SSE4_2 f = true -> n <= 15) ->
  parse_expected mem f expected n c = Some (true, c') ->
  c' = set_char c (mp_char c + n) /\
  forall t, 0 <= t < n -> mem (mp_char c + t) = mem (expected + t).
Proof.
  intros Hn Hvec. unfold parse_expected.
  destruct (n >? available_size c); [discriminate|].
  destruct (ORCUS_CPU_FEATURES f && SSE4_2 f).
  - specialize (Hvec eq_refl). intros H0.
    assert (H : parse_expected_sse42 mem expected n c = (true, c'))
      by congruence.
    clear H0. destruct (Z.eq_dec n 0) as [->|Hnz].
    + unfold parse_expected_sse42 in H. rewrite cmpestrm_empty in H.
      cbn [Z.eqb negb] in H. injection H as <-. split; [reflexivity|lia].
    + rewrite parse_expected_sse42_exact in H by lia.
      destruct (prefix_match mem expected (mp_char c) (Z.to_nat n)) eqn:E;
        [|discriminate].
      injection H as <-. split; [reflexivity|].
      intros t Ht. apply (proj1 (prefix_match_true expected _ _) E). lia.
  - destruct (parse_expected_scalar_spec expected n c Hn)
      as (b & j & Hj & Hres & Heq & Hb).
    rewrite Hres. intros H. injection H as -> <-. subst j.
    split; [reflexivity|exact Heq].
Qed.

End TokenMatcher.

(** ** The skip engines and the moves of the cursor *)

Section Moves.

Variable mem : memory.
Variable f : cpu_features.

(** [skip] on a set of at most sixteen bytes, with fewer than [2 ^ 31]
    bytes left where the SSE4.2 variant is compiled: every variant scans
    to the first byte outside the set. *)
Lemma skip_spec (chars n : Z) (c : parser_base) :
  cursor_inv c ->
  (ORCUS_CPU_FEATURES f && SSE4_2 f = true ->
   0 <= n <= 16 /\ available_size c < 2 ^ 31) ->
  skip mem f chars n c = Some (scan_to mem (fun ch => is_in mem ch chars n) c).
Proof.
  intros Hinv Hvec. unfold skip.
  destruct (ORCUS_CPU_FEATURES f && SSE4_2 f).
  - destruct (Hvec eq_refl). now apply skip_sse42_spec.
  - apply skip_scalar_spec.
Qed.

(** X2.  Where [skip] does what it is meant to: with a skip-set of at most
    sixteen bytes and fewer than [2 ^ 31] bytes left where the SSE4.2
    variant is compiled (and with any set and any buffer in the scalar
    variant), it leaves the cursor at the first position at or after the
    starting one whose byte is not in the set, or at the end, and a second
    call does not move it. *)
Lemma skip_first_non_member (chars n : Z) (c : parser_base) :
  cursor_inv c ->
  (ORCUS_CPU_FEATURES f && SSE4_2 f = true ->
   0 <= n <= 16 /\ available_size c < 2 ^ 31) ->
  exists c', skip mem f chars n c = Some c' /\
    c' = set_char c (mp_char c') /\
    mp_char c <= mp_char c' <= mp_end c /\
    (forall a, mp_char c <= a < mp_char c' ->
               is_in mem (mem a) chars n = true) /\
    (mp_char c' = mp_end c \/ is_in mem (mem (mp_char c')) chars n = false) /\
    skip mem f chars n c' = Some c'.
Proof.
  intros Hinv Hvec. rewrite skip_spec by assumption.
  set (P := fun ch => is_in mem ch chars n).
  exists (scan_to mem P c). split; [reflexivity|].
  pose proof (scan_to_bounds mem P c Hinv) as Hb.
  repeat split.
  - apply Hb.
  - apply Hb.
  - apply (scan_to_members mem P c).
  - apply (scan_to_stop mem P c Hinv).
  - rewrite skip_spec.
    + fold P. now rewrite scan_to_idem.
    + now apply scan_to_inv.
    + intros Hv. destruct (Hvec Hv) as [Hn Hsmall]. split; [exact Hn|].
      unfold available_size in *.
      change (mp_end (scan_to mem P c)) with (mp_end c). lia.
Qed.

(** X3.  Where the variants agree: on a cursor that satisfies the invariant
    all three variants of [skip_space_and_control] return the same cursor;
    the two variants of [skip] return the same cursor when the skip-set
    has at most sixteen bytes and fewer than [2 ^ 31] bytes are left. *)
Lemma skip_variants_agree (g : cpu_features) (chars n : Z) (c : parser_base) :
  cursor_inv c ->
  (0 <= n <= 16 -> available_size c < 2 ^ 31 ->
   exists c', skip mem f chars n c = Some c' /\
              skip mem g chars n c = Some c') /\
  (exists c', skip_space_and_control mem f c = Some c' /\
              skip_space_and_control mem g c = Some c').
Proof.
  intros Hinv. split.
  - intros Hn Hsmall. eexists. split.
    + apply skip_spec; [exact Hinv|]. intros _. split; assumption.
    + unfold skip. destruct (ORCUS_CPU_FEATURES g && SSE4_2 g).
      * now apply skip_sse42_spec.
      * apply skip_scalar_spec.
  - eexists. split; now apply skip_space_and_control_spec.
Qed.

(** Each operation that returns moves the cursor within what was left
    of the buffer, and changes nothing else. *)
Lemma op_step_moves (c c' : parser_base) :
  cursor_inv c -> numeric_contract (m_func_parse_numeric c) ->
  op_step mem f c c' ->
  exists q, c' = set_char c q /\ mp_char c <= q <= mp_end c.
Proof.
  intros Hinv Hcontract Hstep. pose proof Hinv as [Hb He].
  destruct Hstep as [chars n c c' H|c c' H|expected n b c c' Hn H|c].
  - unfold skip in H. destruct (ORCUS_CPU_FEATURES f && SSE4_2 f).
    + destruct (skip_sse42_bounds mem chars n c Hinv) as (q & Hq & Hrange).
      exists q. split; [congruence|exact Hrange].
    + rewrite skip_scalar_spec in H. injection H as <-.
      eexists. split; [reflexivity|].
      apply (scan_to_bounds mem _ c Hinv).
  - rewrite skip_space_and_control_spec in H by exact Hinv. injection H as <-.
    eexists. split; [reflexivity|].
    apply (scan_to_bounds mem _ c Hinv).
  - unfold parse_expected in H.
    destruct (Z.gtb_spec n (available_size c)) as [|Hfit].
    + injection H as _ <-. exists (mp_char c).
      split; [now rewrite set_char_id|lia].
    + unfold available_size in Hfit.
      destruct (ORCUS_CPU_FEATURES f && SSE4_2 f).
      * assert (H' : parse_expected_sse42 mem expected n c = (b, c'))
          by congruence.
        apply (f_equal snd) in H'. change (snd (b, c')) with c' in H'.
        destruct (parse_expected_sse42_moves mem expected n c) as [E|E];
          rewrite H' in E; rewrite E.
        -- exists (mp_char c). split; [now rewrite set_char_id|lia].
        -- eexists. split; [reflexivity|lia].
      * destruct (parse_expected_scalar_spec mem expected n c Hn)
          as (b' & j & Hj & Hres & _).
        rewrite Hres in H. injection H as _ <-.
        eexists. split; [reflexivity|lia].
  - unfold parse_double.
    specialize (Hcontract mem (mp_char c) (available_size c)
                  ltac:(unfold available_size; lia)).
    destruct (m_func_parse_numeric c mem (mp_char c) (available_size c))
      as [val p]. cbn [snd] in *.
    destruct (Z.eqb_spec p (mp_char c)); cbn [snd].
    + exists (mp_char c). split; [now rewrite set_char_id|lia].
    + exists p. split; [reflexivity|]. unfold available_size in *. lia.
Qed.

End Moves.

(** * The claims *)

Section Claims.

Variable mem : memory.
Variable f : cpu_features.

(** C4.  On a cursor that satisfies the invariant every variant of
    [skip_space_and_control] returns, and the cursor it leaves is at or
    before every byte of value [0x80] or more that lay at or after the
    starting position. *)
Theorem skip_space_and_control_high_bit (c : parser_base) :
  cursor_inv c ->
  exists c', skip_space_and_control mem f c = Some c' /\
    forall a, mp_char c <= a -> 0x80 <= uchar (mem a) -> mp_char c' <= a.
Proof.
  intros Hinv. rewrite skip_space_and_control_spec by exact Hinv.
  eexists. split; [reflexivity|]. intros a Ha Hhigh.
  destruct (Z_le_gt_dec (mp_char (scan_to mem space_or_control c)) a) as [|Hgt];
    [assumption|].
  assert (Hm : space_or_control (mem a) = true)
    by (apply (scan_to_members mem space_or_control c); lia).
  unfold space_or_control in Hm. apply Z.leb_le in Hm. lia.
Qed.

(** C6.  [parse_double] returns the NaN sentinel with the cursor
    unchanged exactly when the strategy hands back the pointer it was
    given; otherwise the cursor is the pointer the strategy returned and
    the value is the strategy's. *)
Theorem parse_double_spec (c : parser_base) :
  let res := m_func_parse_numeric c mem (mp_char c) (available_size c) in
  let out := parse_double mem c in
  (fst out = quiet_NaN /\ snd out = c <-> snd res = mp_char c) /\
  (snd res <> mp_char c -> out = (fst res, set_char c (snd res))).
Proof.
  intros res out. subst res out. unfold parse_double.
  destruct (m_func_parse_numeric c mem (mp_char c) (available_size c))
    as [val p]. cbn [fst snd].
  destruct (Z.eqb_spec p (mp_char c)) as [E|E]; cbn [fst snd].
  - split; [tauto|congruence].
  - split; [|reflexivity]. split; [|congruence].
    intros [_ H]. apply (f_equal mp_char) in H. exact H.
Qed.

(** C7.  When the expected token is longer than what is left of the
    buffer, [parse_expected] fails at once and the cursor is the one it was
    given, whichever variant is compiled. *)
Theorem parse_expected_too_long (expected n : Z) (c : parser_base) :
  n > available_size c ->
  parse_expected mem f expected n c = Some (false, c).
Proof.
  intros H. unfold parse_expected.
  destruct (Z.gtb_spec n (available_size c)); [reflexivity|lia].
Qed.

(** C8.  [remaining_size] is [available_size] less one when that is not
    zero, and zero when it is. *)
Theorem remaining_size_spec (c : parser_base) :
  (available_size c <> 0 -> remaining_size c = available_size c - 1) /\
  (available_size c = 0 -> remaining_size c = 0).
Proof.
  unfold remaining_size.
  destruct (Z.eqb_spec (available_size c) 0); split; intros; congruence.
Qed.

(** C9.  The cursor a constructor call builds has [current = start],
    offset zero and satisfies [start <= current <= end]; every cursor
    reached from it by calls of [skip], [skip_space_and_control],
    [parse_expected] and [parse_double] still satisfies it, over the same
    buffer, provided the numeric strategy bound at construction keeps to
    its contract; and on every such cursor the three looping operations
    return. *)
Theorem cursor_invariant (parse_numeric : numeric_func) (p n : Z)
    (transient_stream : bool) (c : parser_base) :
  0 <= n -> numeric_contract parse_numeric ->
  let c0 := parser_base_ctor parse_numeric p n transient_stream in
  (cursor_inv c0 /\ mp_char c0 = mp_begin c0 /\ offset c0 = 0) /\
  (reachable mem f c0 c ->
   cursor_inv c /\ mp_begin c = p /\ mp_end c = p + n /\
   (forall chars k, skip mem f chars k c <> None) /\
   skip_space_and_control mem f c <> None /\
   (forall expected k, 0 <= k -> parse_expected mem f expected k c <> None)).
Proof.
  intros Hn Hcontract c0. split.
  - unfold cursor_inv, offset. simpl. lia.
  - intros Hreach.
    assert (J : cursor_inv c /\ mp_begin c = p /\ mp_end c = p + n /\
                m_func_parse_numeric c = parse_numeric).
    { induction Hreach as [|c c' _ IH Hstep].
      - unfold cursor_inv. simpl. repeat split; lia.
      - destruct IH as (Hinv & Hb & He & Hf).
        destruct (op_step_moves mem f c c' Hinv) as (q & -> & Hq);
          [now rewrite Hf|exact Hstep|].
        unfold cursor_inv in *. simpl. repeat split; try assumption; lia. }
    destruct J as (Hinv & Hb & He & _).
    repeat split; try assumption; try apply Hinv.
    + intros chars k. unfold skip.
      destruct (ORCUS_CPU_FEATURES f && SSE4_2 f).
      * destruct (skip_sse42_bounds mem chars k c Hinv) as (q & Hq & _).
        congruence.
      * rewrite skip_scalar_spec. discriminate.
    + rewrite skip_space_and_control_spec by exact Hinv. discriminate.
    + intros expected k Hk. unfold parse_expected.
      destruct (k >? available_size c); [discriminate|].
      destruct (ORCUS_CPU_FEATURES f && SSE4_2 f); [discriminate|].
      destruct (parse_expected_scalar_spec mem expected k c Hk)
        as (b & j & _ & Hres & _).
      congruence.
Qed.

(** C10.  An empty expected token is matched on every cursor that
    satisfies the invariant, an exhausted one included, and the cursor
    stays where it was. *)
Theorem parse_expected_empty_token (expected : Z) (c : parser_base) :
  cursor_inv c ->
  parse_expected mem f expected 0 c = Some (true, c).
Proof.
  intros [_ Hle]. unfold parse_expected, available_size.
  destruct (Z.gtb_spec 0 (mp_end c - mp_char c)); [lia|].
  destruct (ORCUS_CPU_FEATURES f && SSE4_2 f).
  - unfold parse_expected_sse42. rewrite cmpestrm_empty.
    cbn [Z.eqb negb]. now rewrite Z.add_0_r, set_char_id.
  - reflexivity.
Qed.

End Claims.

(** * The claims on concrete buffers *)

Import Examples.

Lemma cursor_inv_cursor (n : Z) : 0 <= n -> cursor_inv (cursor n).
Proof. intros H. unfold cursor_inv. simpl. lia. Qed.

Lemma parse_digits_contract : numeric_contract parse_digits.
Proof.
  intros mem p n Hn. unfold parse_digits. cbn [snd].
  pose proof (run_le mem is_digit p (Z.to_nat n)). lia.
Qed.

(** C1.  On the buffer [AXCD] with the expected token [AB] the scalar
    variant of [parse_expected] reports failure with the cursor advanced
    by one, past the byte that matched; the SSE4.2 variant reports failure
    with the cursor where it was. *)
Theorem parse_expected_scalar_partial_advance :
  outcome (parse_expected mem_AXCD scalar_build 100 2 (cursor 4))
  = Some (false, 1) /\
  outcome (parse_expected mem_AXCD sse42_build 100 2 (cursor 4))
  = Some (false, 0).
Proof. split; vm_compute; reflexivity. Qed.

(** C2.  The SSE4.2 variant of [parse_expected] reports a match and
    advances the cursor over bytes that are not the expected ones: with a
    token of seventeen bytes only the first sixteen are compared, and with
    a token of sixteen bytes a buffer whose last byte is the first byte of
    the token is accepted. *)
Theorem parse_expected_sse42_false_match :
  (outcome (parse_expected mem_long sse42_build 100 17 (cursor 17))
   = Some (true, 17) /\ mem_long 16 <> mem_long 116) /\
  (outcome (parse_expected mem_tail sse42_build 100 16 (cursor 16))
   = Some (true, 16) /\ mem_tail 0 <> mem_tail 100).
Proof.
  repeat split; try (vm_compute; reflexivity);
    intros H; vm_compute in H; discriminate H.
Qed.

(** C3.  The two variants of [skip] do not agree on every input: with a
    skip-set of seventeen bytes, of which the SSE4.2 variant compares the
    first sixteen only, that variant leaves the cursor at 0 where the
    scalar variant moves it to 3. *)
Theorem skip_variants_disagree :
  position (skip mem_q sse42_build 100 17 (cursor 3)) = Some 0 /\
  position (skip mem_q scalar_build 100 17 (cursor 3)) = Some 3.
Proof. split; vm_compute; reflexivity. Qed.

(** C5.  With a skip-set of seventeen bytes the SSE4.2 variant of
    [skip] leaves the cursor on a byte that is in the set, the buffer not
    being exhausted; the scalar variant goes on to the end. *)
Theorem skip_stops_on_member :
  position (skip mem_q sse42_build 100 17 (cursor 3)) = Some 0 /\
  is_in mem_q (mem_q 0) 100 17 = true /\
  has_char (cursor 3) = true /\
  position (skip mem_q scalar_build 100 17 (cursor 3)) = Some 3.
Proof. repeat split; vm_compute; reflexivity. Qed.

(** The SSE4.2 variant of [skip] narrows the number of remaining bytes
    to an [int]: when that count is zero the cursor does not move. *)
Lemma skip_sse42_zero_count (mem : memory) (chars n : Z) (c : parser_base) :
  to_int (available_size c) = 0 ->
  skip mem sse42_build chars n c = Some c.
Proof.
  intros H. unfold skip. cbn [sse42_build ORCUS_CPU_FEATURES SSE4_2 andb].
  unfold skip_sse42. cbn [skip_sse42_loop]. now rewrite H.
Qed.

Lemma skip_scalar_all_members (mem : memory) (chars n : Z) (c : parser_base) :
  cursor_inv c ->
  (forall a, is_in mem (mem a) chars n = true) ->
  skip mem scalar_build chars n c = Some (set_char c (mp_end c)).
Proof.
  intros [_ Hle] Hall. unfold skip.
  cbn [scalar_build ORCUS_CPU_FEATURES SSE4_2 andb].
  rewrite skip_scalar_spec. unfold scan_to.
  rewrite (run_full mem (fun ch => is_in mem ch chars n)) by exact Hall.
  unfold available_size. rewrite Z2Nat.id by lia. do 2 f_equal. lia.
Qed.

(** On a buffer of [2 ^ 32] blanks the count of the SSE4.2 variant is
    zero and the cursor stays at 0, where the scalar variant reaches the
    end. *)
Lemma skip_sse42_int_count :
  position (skip mem_spaces sse42_build 100 1 (cursor (2 ^ 32))) = Some 0 /\
  position (skip mem_spaces scalar_build 100 1 (cursor (2 ^ 32)))
  = Some (2 ^ 32).
Proof.
  split.
  - rewrite skip_sse42_zero_count; reflexivity.
  - rewrite skip_scalar_all_members.
    + reflexivity.
    + apply cursor_inv_cursor. lia.
    + intros a. reflexivity.
Qed.

(** The variants agree on tabs interleaved with high-bit bytes. *)
Lemma skip_variants_agree_high_bit :
  (exists c', skip mem_high avx2_build 100 1 (cursor 64) = Some c' /\
              skip mem_high scalar_build 100 1 (cursor 64) = Some c') /\
  (exists c', skip_space_and_control mem_high avx2_build (cursor 64) = Some c' /\
              skip_space_and_control mem_high scalar_build (cursor 64) = Some c').
Proof.
  destruct (skip_variants_agree mem_high avx2_build scalar_build 100 1
              (cursor 64) (cursor_inv_cursor 64 ltac:(lia))) as [Hskip Hspace].
  split; [apply Hskip|exact Hspace].
  - lia.
  - reflexivity.
Defined.

(** Sixty-four bytes of tabs with high-bit bytes at 35 and 37, AVX2
    variant. *)
Lemma skip_space_and_control_high_bit_witness :
  exists c', skip_space_and_control mem_high avx2_build (cursor 64) = Some c' /\
    forall a, mp_char (cursor 64) <= a -> 0x80 <= uchar (mem_high a) ->
              mp_char c' <= a.
Proof.
  apply skip_space_and_control_high_bit. apply cursor_inv_cursor. lia.
Defined.

(** [skip] over blanks and commas stops at [foo], and stays there. *)
Lemma skip_first_non_member_blanks :
  exists c', skip mem_blanks sse42_build 100 2 (cursor 7) = Some c' /\
    c' = set_char (cursor 7) (mp_char c') /\
    mp_char (cursor 7) <= mp_char c' <= mp_end (cursor 7) /\
    (forall a, mp_char (cursor 7) <= a < mp_char c' ->
               is_in mem_blanks (mem_blanks a) 100 2 = true) /\
    (mp_char c' = mp_end (cursor 7) \/
     is_in mem_blanks (mem_blanks (mp_char c')) 100 2 = false) /\
    skip mem_blanks sse42_build 100 2 c' = Some c'.
Proof.
  apply skip_first_non_member.
  - apply cursor_inv_cursor. lia.
  - intros _. split; [lia|reflexivity].
Defined.

(** After [TRUE], the digits [123] are consumed and their value returned. *)
Lemma parse_double_spec_witness :
  parse_double mem_TRUE123 (set_char (cursor 7) 4)
  = (S754_finite false 123 0, set_char (cursor 7) 7).
Proof.
  apply (proj2 (parse_double_spec mem_TRUE123 (set_char (cursor 7) 4))).
  vm_compute. discriminate.
Defined.

(** Five bytes expected, four left. *)
Lemma parse_expected_too_long_witness :
  parse_expected mem_ABCD sse42_build 100 5 (cursor 4) = Some (false, cursor 4).
Proof. apply parse_expected_too_long. reflexivity. Defined.

(** Four bytes left, and none. *)
Lemma remaining_size_spec_witness :
  remaining_size (cursor 4) = available_size (cursor 4) - 1 /\
  remaining_size (cursor 0) = 0.
Proof.
  split.
  - apply (proj1 (remaining_size_spec (cursor 4))). vm_compute. discriminate.
  - apply (proj2 (remaining_size_spec (cursor 0))). reflexivity.
Defined.

(** The empty token on the empty buffer. *)
Lemma parse_expected_empty_token_witness :
  parse_expected zeros scalar_build 100 0 (cursor 0) = Some (true, cursor 0).
Proof.
  apply parse_expected_empty_token. apply cursor_inv_cursor. lia.
Defined.

(** [TRUE123]: constructed, then [parse_expected] and [parse_double]. *)
Lemma cursor_invariant_witness :
  (cursor_inv (cursor 7) /\ mp_char (cursor 7) = mp_begin (cursor 7) /\
   offset (cursor 7) = 0) /\
  cursor_inv (set_char (cursor 7) 7).
Proof.
  destruct (cursor_invariant mem_TRUE123 sse42_build parse_digits 0 7 false
              (set_char (cursor 7) 7) ltac:(lia) parse_digits_contract)
    as [Hctor Hreach].
  split; [exact Hctor|]. apply Hreach.
  apply (reach_step _ _ _ (set_char (cursor 7) 4)).
  - apply (reach_step _ _ _ (cursor 7)); [apply reach_init|].
    apply (step_parse_expected _ _ 100 4 true); [lia|reflexivity].
  - exact (step_parse_double mem_TRUE123 sse42_build (set_char (cursor 7) 4)).
Defined.

(** The end-to-end examples of the specification, in every variant. *)
Example skip_blanks_then_foo :
  map (fun f => position (skip_space_and_control mem_blanks f (cursor 7)))
      [scalar_build; sse42_build; avx2_build]
  = [Some 4; Some 4; Some 4].
Proof. vm_compute. reflexivity. Qed.

Example parse_TRUE_then_123 :
  map (fun f => outcome (parse_expected mem_TRUE123 f 100 4 (cursor 7)))
      [scalar_build; sse42_build]
  = [Some (true, 4); Some (true, 4)] /\
  parse_double mem_TRUE123 (set_char (cursor 7) 4)
  = (S754_finite false 123 0, set_char (cursor 7) 7).
Proof. split; vm_compute; reflexivity. Qed.

Example parse_ABCD :
  map (fun f => outcome (parse_expected mem_ABCD f 100 2 (cursor 4)))
      [scalar_build; sse42_build]
  = [Some (true, 2); Some (true, 2)].
Proof. vm_compute. reflexivity. Qed.

(** * Further properties of the scanning operations *)

Section SkipProperties.

Variable mem : memory.

(** The bytes the SSE4.2 [skip] compares against are bytes of the
    caller's set. *)
Lemma in_loaded_member (chars n : Z) (ch : byte) :
  0 <= n ->
  in_loaded mem chars (Intrin.str_len (to_int n)) ch = true ->
  is_in mem ch chars n = true.
Proof.
  intros Hn H. unfold in_loaded in H. apply existsb_exists in H.
  destruct H as (i & Hi & H). apply in_seq in Hi.
  apply andb_true_iff in H. destruct H as [Hlt Heq].
  apply Nat.ltb_lt in Hlt. apply Z.eqb_eq in Heq. apply uchar_inj in Heq.
  assert (Hk : (Intrin.str_len (to_int n) <= Z.to_nat n)%nat).
  { unfold Intrin.str_len.
    destruct (Z_lt_le_dec n 16) as [Hs|Hs].
    - rewrite to_int_id by lia. lia.
    - lia. }
  unfold is_in. apply existsb_exists. exists i. split.
  - apply in_seq. lia.
  - rewrite <- Heq. apply Byte.byte_dec_lb. reflexivity.
Qed.

(** A set of sixteen bytes or more is compared as its first sixteen. *)
Lemma in_loaded_truncated (chars n : Z) (ch : byte) :
  0 <= n < 2 ^ 31 ->
  in_loaded mem chars (Intrin.str_len (to_int n)) ch
  = is_in mem ch chars (Z.min n 16).
Proof.
  intros Hn. rewrite <- in_loaded_is_in by lia. f_equal.
  rewrite !to_int_id by lia. unfold Intrin.str_len. lia.
Qed.

Lemma run_none (P : byte -> bool) (p : Z) (k : nat) :
  (forall a, P (mem a) = false) -> run mem P p k = O.
Proof.
  intros H. destruct k; simpl; [reflexivity|]. now rewrite H.
Qed.

Lemma is_in_empty (ch : byte) (chars : Z) : is_in mem ch chars 0 = false.
Proof. reflexivity. Qed.

Lemma in_loaded_empty (chars : Z) (ch : byte) :
  in_loaded mem chars (Intrin.str_len (to_int 0)) ch = false.
Proof. reflexivity. Qed.

End SkipProperties.

Section FurtherProperties.

Variable mem : memory.
Variable f : cpu_features.

(** X1.  On a cursor that satisfies the invariant every variant of
    [skip_space_and_control] moves only [mp_char], forward and within the
    buffer, over bytes of unsigned value at most [0x20], to the first byte
    above [0x20] or to the end; a second call does not move the cursor. *)
Theorem skip_space_and_control_first_above_space (c : parser_base) :
  cursor_inv c ->
  exists c', skip_space_and_control mem f c = Some c' /\
    c' = set_char c (mp_char c') /\
    mp_char c <= mp_char c' <= mp_end c /\
    (forall a, mp_char c <= a < mp_char c' -> uchar (mem a) <= 0x20) /\
    (mp_char c' = mp_end c \/ 0x20 < uchar (mem (mp_char c'))) /\
    skip_space_and_control mem f c' = Some c'.
Proof.
  intros Hinv. rewrite skip_space_and_control_spec by exact Hinv.
  exists (scan_to mem space_or_control c). split; [reflexivity|].
  pose proof (scan_to_bounds mem space_or_control c Hinv) as Hb.
  split; [reflexivity|]. split; [exact Hb|]. split; [|split].
  - intros a Ha. apply Z.leb_le.
    apply (scan_to_members mem space_or_control c a Ha).
  - destruct (scan_to_stop mem space_or_control c Hinv) as [He|Hs];
      [left; exact He|right].
    unfold space_or_control in Hs. apply Z.leb_gt in Hs. exact Hs.
  - rewrite skip_space_and_control_spec by (now apply scan_to_inv).
    now rewrite scan_to_idem.
Qed.

(** X4.  With fewer than [2 ^ 31] bytes left and a set length that fits
    an [int], the SSE4.2 variant of [skip] does what the scalar variant
    does on the first sixteen bytes of the set. *)
Theorem skip_sse42_truncates_set (chars n : Z) (c : parser_base) :
  cursor_inv c -> 0 <= n < 2 ^ 31 -> available_size c < 2 ^ 31 ->
  skip_sse42 mem chars n c = skip_scalar mem chars (Z.min n 16) c.
Proof.
  intros [_ Hle] Hn Hsmall. rewrite skip_scalar_spec. unfold skip_sse42.
  destruct (skip_sse42_loop_spec mem chars n
              (S (Z.to_nat (available_size c))) c
              (to_int (available_size c)) Hle eq_refl ltac:(lia))
    as (k & _ & Hk & Hloop).
  rewrite Hloop, (Hk Hsmall). unfold scan_to. do 4 f_equal.
  apply run_ext. intros ch. now apply in_loaded_truncated.
Qed.

(** X5.  Whatever the variant, the length of the set and the size of
    the buffer, [skip] returns, keeps the cursor inside the buffer, and
    passes members of the set only. *)
Theorem skip_passes_members_only (chars n : Z) (c : parser_base) :
  cursor_inv c -> 0 <= n ->
  exists c', skip mem f chars n c = Some c' /\
    c' = set_char c (mp_char c') /\
    mp_char c <= mp_char c' <= mp_end c /\
    forall a, mp_char c <= a < mp_char c' -> is_in mem (mem a) chars n = true.
Proof.
  intros Hinv Hn. unfold skip.
  destruct (ORCUS_CPU_FEATURES f && SSE4_2 f).
  - unfold skip_sse42. destruct Hinv as [Hb Hle].
    destruct (skip_sse42_loop_spec mem chars n
                (S (Z.to_nat (available_size c))) c
                (to_int (available_size c)) Hle eq_refl ltac:(lia))
      as (k & Hk & _ & Hloop).
    rewrite Hloop. eexists. split; [reflexivity|].
    set (P := in_loaded mem chars (Intrin.str_len (to_int n))).
    pose proof (run_le mem P (mp_char c) k) as Hrun.
    cbn [set_char mp_char]. split; [reflexivity|]. split.
    + unfold available_size in Hk. lia.
    + intros a Ha. apply in_loaded_member; [exact Hn|].
      replace a with (mp_char c + Z.of_nat (Z.to_nat (a - mp_char c))) by lia.
      apply (run_all mem P (mp_char c) k). lia.
  - rewrite skip_scalar_spec. eexists. split; [reflexivity|].
    split; [reflexivity|]. split.
    + apply (scan_to_bounds mem _ c Hinv).
    + apply (scan_to_members mem (fun ch => is_in mem ch chars n) c).
Qed.

(** X12.  With an empty set, or on a cursor at the end of its buffer,
    [skip] returns the cursor it was given, in every variant. *)
Theorem skip_nothing_to_skip (chars n : Z) (c : parser_base) :
  cursor_inv c -> n = 0 \/ mp_char c = mp_end c ->
  skip mem f chars n c = Some c.
Proof.
  intros Hinv Hedge. unfold skip.
  destruct (ORCUS_CPU_FEATURES f && SSE4_2 f).
  - unfold skip_sse42. destruct Hinv as [Hb Hle].
    destruct (skip_sse42_loop_spec mem chars n
                (S (Z.to_nat (available_size c))) c
                (to_int (available_size c)) Hle eq_refl ltac:(lia))
      as (k & Hk & _ & Hloop).
    rewrite Hloop. destruct Hedge as [->|Hend].
    + rewrite run_none by (intros a; apply in_loaded_empty).
      now rewrite Z.add_0_r, set_char_id.
    + unfold available_size in Hk.
      replace k with O by lia. cbn [run].
      now rewrite Z.add_0_r, set_char_id.
  - rewrite skip_scalar_spec. apply f_equal. apply scan_to_empty.
    destruct Hedge as [->|Hend].
    + apply run_none. intros a. apply is_in_empty.
    + unfold available_size. now replace (Z.to_nat (mp_end c - mp_char c)) with O by lia.
Qed.

End FurtherProperties.

(** ** The token matcher, further *)

Section TokenMatcherProperties.

Variable mem : memory.

(** The scalar loop, with the place of the mismatch: a failure stops
    strictly inside the token. *)
Lemma parse_expected_scalar_loop_exact : forall fuel i expected n c,
  0 <= i <= n -> (Z.to_nat (n - i) < fuel)%nat ->
  exists (b : bool) (j : Z),
    0 <= j <= n - i /\
    parse_expected_scalar_loop mem fuel i expected n c
    = Some (b, set_char c (mp_char c + j)) /\
    (forall t, 0 <= t < j -> mem (mp_char c + t) = mem (expected + t)) /\
    (if b then j = n - i
     else j < n - i /\ mem (mp_char c + j) <> mem (expected + j)).
Proof.
  induction fuel as [|fuel IH]; intros i expected n c Hi Hf; [lia|].
  cbn [parse_expected_scalar_loop].
  destruct (Z.ltb_spec i n) as [Hlt|Hge].
  - unfold cur_char.
    destruct (Byte.eqb (mem (mp_char c)) (mem expected)) eqn:E; cbn [negb].
    + apply Byte.byte_dec_bl in E.
      destruct (IH (i + 1) (expected + 1) n (next c) ltac:(lia) ltac:(lia))
        as (b & j & Hj & Hloop & Heq & Hb).
      exists b, (j + 1). unfold next in *. cbn [set_char mp_char] in *.
      rewrite set_char_twice in Hloop.
      split; [lia|]. split; [|split].
      * rewrite Hloop. do 3 f_equal. lia.
      * intros t Ht. destruct (Z.eq_dec t 0) as [->|Hne].
        -- now rewrite !Z.add_0_r.
        -- specialize (Heq (t - 1) ltac:(lia)).
           replace (mp_char c + 1 + (t - 1)) with (mp_char c + t) in Heq by lia.
           replace (expected + 1 + (t - 1)) with (expected + t) in Heq by lia.
           exact Heq.
      * destruct b.
        -- lia.
        -- destruct Hb as [Hjn Hne]. split; [lia|].
           replace (mp_char c + (j + 1)) with (mp_char c + 1 + j) by lia.
           replace (expected + (j + 1)) with (expected + 1 + j) by lia.
           exact Hne.
    + exists false, 0. rewrite !Z.add_0_r, set_char_id.
      split; [lia|]. split; [reflexivity|]. split; [intros; lia|].
      split; [lia|]. now apply Byte.eqb_false.
  - exists true, 0. rewrite Z.add_0_r, set_char_id.
    split; [lia|]. split; [reflexivity|]. split; [intros; lia|]. lia.
Qed.

(** The mask of the ordered comparison is not zero when the bytes it
    compares are the expected ones, whatever the length operand. *)
Lemma cmpestrm_mask_of_match (expected p l : Z) :
  prefix_match mem expected p (Intrin.str_len l) = true ->
  Intrin._mm_cvtsi128_si32
    (Intrin._mm_cmpestrm (Intrin._mm_loadu_si128 mem expected) l
                         (Intrin._mm_loadu_si128 mem p) l
                         parse_expected_mode) <> 0.
Proof.
  intros Hm.
  unfold Intrin._mm_cmpestrm, Intrin.int_res2, Intrin._mm_loadu_si128.
  change (Z.testbit parse_expected_mode 6) with false. cbv iota zeta.
  assert (Hk : (Intrin.str_len l <= 16)%nat) by (unfold Intrin.str_len; lia).
  set (k := Intrin.str_len l) in *.
  change (seq 0 16) with (0%nat :: seq 1 15). cbn [map].
  set (rest := map _ (seq 1 15)).
  assert (Hrest : length rest = 15%nat)
    by (unfold rest; now rewrite length_map, length_seq).
  set (b0 := Intrin.IntRes2 _ _ _ _ _ 0).
  assert (Hb0 : b0 = true).
  { unfold b0, Intrin.IntRes2.
    change (Z.testbit parse_expected_mode 4) with false. cbv iota zeta.
    rewrite IntRes1_ordered_head by exact Hk. exact Hm. }
  clearbody b0 rest. subst b0.
  change (firstn 8 (true :: rest)) with (true :: firstn 7 rest).
  change (skipn 8 (true :: rest)) with (skipn 7 rest).
  pose proof (bits_to_Z_range (firstn 7 rest)) as Ha.
  pose proof (bits_to_Z_range (skipn 7 rest)) as Hb.
  rewrite length_firstn, Hrest in Ha. rewrite length_skipn, Hrest in Hb.
  change (Z.of_nat (Nat.min 7 15)) with 7 in Ha.
  change (Z.of_nat (15 - 7)) with 8 in Hb.
  unfold Intrin._mm_cvtsi128_si32, Intrin.lane. cbn [nth repeat].
  change (Intrin.bits_to_Z (true :: firstn 7 rest))
    with (1 + 2 * Intrin.bits_to_Z (firstn 7 rest)).
  rewrite to_int_id; lia.
Qed.

End TokenMatcherProperties.

Section TokenMatcherTheorems.

Variable mem : memory.
Variable f : cpu_features.

(** X6.  In every variant, and for every length of the token,
    [parse_expected] accepts a token that is there: when the bytes at the
    cursor are the expected ones it reports success and advances the
    cursor by the length of the token. *)
Theorem parse_expected_accepts_match (expected n : Z) (c : parser_base) :
  0 <= n <= available_size c ->
  (forall t, 0 <= t < n -> mem (mp_char c + t) = mem (expected + t)) ->
  parse_expected mem f expected n c = Some (true, set_char c (mp_char c + n)).
Proof.
  intros Hn Hmatch. unfold parse_expected.
  destruct (Z.gtb_spec n (available_size c)); [lia|].
  destruct (ORCUS_CPU_FEATURES f && SSE4_2 f).
  - unfold parse_expected_sse42.
    assert (Hmask : Intrin._mm_cvtsi128_si32
              (Intrin._mm_cmpestrm (Intrin._mm_loadu_si128 mem expected)
                 (to_int n) (Intrin._mm_loadu_si128 mem (mp_char c))
                 (to_int n) parse_expected_mode) <> 0).
    { apply cmpestrm_mask_of_match. apply prefix_match_true.
      intros t Ht. apply Hmatch.
      assert (Hk : (Intrin.str_len (to_int n) <= Z.to_nat n)%nat).
      { unfold Intrin.str_len. destruct (Z_lt_le_dec n 16).
        - rewrite to_int_id by lia. lia.
        - lia. }
      lia. }
    apply Z.eqb_neq in Hmask. rewrite Hmask. reflexivity.
  - destruct (parse_expected_scalar_loop_exact mem (S (Z.to_nat n)) 0
                expected n c ltac:(lia) ltac:(lia))
      as (b & j & Hj & Hloop & _ & Hb).
    unfold parse_expected_scalar. rewrite Hloop. destruct b.
    + do 3 f_equal. lia.
    + destruct Hb as [Hjn Hne]. exfalso. apply Hne. apply Hmatch. lia.
Qed.

(** X7.  Where the token matcher is sound, in the scalar variant for
    every token and in the SSE4.2 variant for tokens of at most fifteen
    bytes, a reported match has consumed exactly the expected bytes, and
    the offset has grown by the length of the token. *)
Theorem parse_expected_match_is_exact (expected n : Z) (c c' : parser_base) :
  0 <= n ->
  (ORCUS_CPU_FEATURES f && SSE4_2 f = true -> n <= 15) ->
  parse_expected mem f expected n c = Some (true, c') ->
  c' = set_char c (mp_char c + n) /\
  offset c' = offset c + n /\
  n <= available_size c /\
  forall t, 0 <= t < n -> mem (mp_char c + t) = mem (expected + t).
Proof.
  intros Hn Hvec H.
  destruct (parse_expected_success mem f expected n c c' Hn Hvec H)
    as [-> Heq].
  split; [reflexivity|]. split; [unfold offset; simpl; lia|].
  split; [|exact Heq].
  unfold parse_expected in H.
  destruct (Z.gtb_spec n (available_size c)); [discriminate|lia].
Qed.

(** X8.  In the scalar variant a failed match of a token that fits the
    buffer leaves the cursor on the first byte that differs from the
    token: the bytes before it are the expected ones, and it lies
    strictly inside the token. *)
Theorem parse_expected_scalar_stops_at_mismatch (expected n : Z)
    (c c' : parser_base) :
  ORCUS_CPU_FEATURES f && SSE4_2 f = false ->
  0 <= n <= available_size c ->
  parse_expected mem f expected n c = Some (false, c') ->
  exists j, 0 <= j < n /\ c' = set_char c (mp_char c + j) /\
    (forall t, 0 <= t < j -> mem (mp_char c + t) = mem (expected + t)) /\
    mem (mp_char c + j) <> mem (expected + j).
Proof.
  intros Hf Hn. unfold parse_expected. rewrite Hf.
  destruct (Z.gtb_spec n (available_size c)); [lia|].
  destruct (parse_expected_scalar_loop_exact mem (S (Z.to_nat n)) 0
              expected n c ltac:(lia) ltac:(lia))
    as (b & j & Hj & Hloop & Heq & Hb).
  unfold parse_expected_scalar. rewrite Hloop. intros Hres.
  injection Hres as -> <-. destruct Hb as [Hjn Hne].
  exists j. repeat split; try lia; assumption.
Qed.

End TokenMatcherTheorems.

(** ** Offsets *)

Section OffsetProperties.

Variable mem : memory.
Variable f : cpu_features.

(** Every cursor reached from a constructed one is over the same
    buffer, with the same strategy and flag. *)
Lemma reachable_same_buffer (parse_numeric : numeric_func) (p n : Z)
    (transient_stream : bool) (c : parser_base) :
  0 <= n -> numeric_contract parse_numeric ->
  reachable mem f (parser_base_ctor parse_numeric p n transient_stream) c ->
  cursor_inv c /\ mp_begin c = p /\ mp_end c = p + n /\
  m_func_parse_numeric c = parse_numeric /\
  m_transient_stream c = transient_stream.
Proof.
  intros Hn Hcontract Hreach. induction Hreach as [|c c' _ IH Hstep].
  - unfold cursor_inv. simpl. repeat split; lia.
  - destruct IH as (Hinv & Hb & He & Hf & Ht).
    destruct (op_step_moves mem f c c' Hinv) as (q & -> & Hq);
      [now rewrite Hf|exact Hstep|].
    unfold cursor_inv in *. simpl. repeat split; try assumption; lia.
Qed.

(** X9.  On every cursor reached from a constructed one by the Skip,
    Match and Numeric operations, the offset and the available size add
    up to the size of the buffer, the offset lies between zero and that
    size, and the numeric strategy and the transient flag are those given
    to the constructor (the strategy keeping to its contract). *)
Theorem offset_plus_available (parse_numeric : numeric_func) (p n : Z)
    (transient_stream : bool) (c : parser_base) :
  0 <= n -> numeric_contract parse_numeric ->
  reachable mem f (parser_base_ctor parse_numeric p n transient_stream) c ->
  offset c + available_size c = n /\ 0 <= offset c <= n /\
  m_func_parse_numeric c = parse_numeric /\
  m_transient_stream c = transient_stream.
Proof.
  intros Hn Hcontract Hreach.
  destruct (reachable_same_buffer parse_numeric p n transient_stream c
              Hn Hcontract Hreach) as ([Hb He] & Hbeg & Hend & Hf & Ht).
  unfold offset, available_size. repeat split; try assumption; lia.
Qed.

(** X11.  No call of [skip], [skip_space_and_control], [parse_expected]
    or [parse_double] that returns moves the cursor backwards: the
    offset does not decrease and the available size does not grow (the
    strategy of the cursor keeping to its contract). *)
Theorem op_step_never_rewinds (c c' : parser_base) :
  cursor_inv c -> numeric_contract (m_func_parse_numeric c) ->
  op_step mem f c c' ->
  offset c <= offset c' /\ 0 <= available_size c' <= available_size c.
Proof.
  intros Hinv Hcontract Hstep.
  destruct (op_step_moves mem f c c' Hinv Hcontract Hstep) as (q & -> & Hq).
  unfold offset, available_size. simpl. lia.
Qed.

End OffsetProperties.


(** ** Diagnostics *)

Module DiagnosticsFacts.

Import String.
Import String.StringSyntax.
Import Diagnostics.
Local Open Scope string_scope.

Lemma list_ascii_of_append (a b : string) :
  list_ascii_of_string (a ++ b)
  = (list_ascii_of_string a ++ list_ascii_of_string b)%list.
Proof.
  induction a as [|x a IH]; simpl; [reflexivity|]. now rewrite IH.
Qed.

Lemma append_inv_tail (a b c : string) : a ++ c = b ++ c -> a = b.
Proof.
  intros H. apply (f_equal list_ascii_of_string) in H.
  rewrite !list_ascii_of_append in H. apply app_inv_tail in H.
  apply (f_equal string_of_list_ascii) in H.
  now rewrite !string_of_list_ascii_of_string in H.
Qed.

Lemma append_inv_head (a b c : string) : c ++ a = c ++ b -> a = b.
Proof.
  induction c as [|x c IH]; simpl; intros H; [exact H|].
  injection H as H. now apply IH.
Qed.

Lemma length_append (a b : string) :
  length (a ++ b) = (length a + length b)%nat.
Proof.
  induction a as [|x a IH]; simpl; [reflexivity|]. now rewrite IH.
Qed.

Lemma decimal_inj (x y : Z) : decimal x = decimal y -> x = y.
Proof.
  unfold decimal. intros H.
  apply (f_equal DecimalString.NilEmpty.int_of_string) in H.
  rewrite !DecimalString.NilEmpty.isi in H. injection H as H.
  apply (f_equal Z.of_int) in H. now rewrite !DecimalZ.of_to in H.
Qed.

Lemma build_offset_msg_inj (x y : Z) :
  build_offset_msg x = build_offset_msg y -> x = y.
Proof.
  unfold build_offset_msg. cbv zeta. intros H.
  change (" (offset=" ++ (decimal x ++ ")") = " (offset=" ++ (decimal y ++ ")"))
    in H.
  apply append_inv_head, append_inv_tail in H. now apply decimal_inj.
Qed.

Lemma length_string_of_list_byte (l : list byte) :
  length (string_of_list_byte l) = List.length l.
Proof.
  unfold string_of_list_byte.
  induction l as [|x l IH]; simpl; [reflexivity|]. now rewrite IH.
Qed.

Lemma length_string_view (mem : memory) (p n : Z) :
  length (string_view mem p n) = Z.to_nat n.
Proof.
  unfold string_view.
  now rewrite length_string_of_list_byte, length_map, length_seq.
Qed.

(** X13.  Both constructors of [parse_error] keep the offset they are
    given, which [offset()] returns, and write it into the message: two
    errors built from the same message (and classification) have the same
    text exactly when their offsets are equal, whatever the base class
    makes of the message. *)
Theorem parse_error_offset_in_message
    (general_error : string -> string)
    (general_error_cls : string -> string -> string)
    (cls msg : string) (o1 o2 : Z) :
  parse_error_offset (parse_error_msg general_error msg o1) = o1 /\
  parse_error_offset (parse_error_cls general_error_cls cls msg o1) = o1 /\
  (m_msg (parse_error_msg general_error msg o1)
   = m_msg (parse_error_msg general_error msg o2) <-> o1 = o2) /\
  (m_msg (parse_error_cls general_error_cls cls msg o1)
   = m_msg (parse_error_cls general_error_cls cls msg o2) <-> o1 = o2).
Proof.
  split; [reflexivity|]. split; [reflexivity|].
  unfold parse_error_msg, parse_error_cls, append_msg. cbn [m_msg].
  split; (split; [|now intros ->]); intros H;
    apply append_inv_head in H; now apply build_offset_msg_inj.
Qed.

(** X14.  The two overloads of [build_message] give the same text for
    a span of one byte; the text holds the two fragments and the
    offending byte or span between them, a null fragment counting as an
    empty one. *)
Theorem build_message_overloads (mem : memory)
    (msg_before msg_after : option string) (p n : Z) (c : Ascii.ascii) :
  build_message_span mem msg_before p 1 msg_after
  = build_message msg_before (Ascii.ascii_of_byte (mem p)) msg_after /\
  length (build_message msg_before c msg_after)
  = (length (write_if "" msg_before) + 1
     + length (write_if "" msg_after))%nat /\
  length (build_message_span mem msg_before p n msg_after)
  = (length (write_if "" msg_before) + Z.to_nat n
     + length (write_if "" msg_after))%nat /\
  build_message None c msg_after = build_message (Some "") c msg_after /\
  build_message msg_before c None = build_message msg_before c (Some "").
Proof.
  assert (Hnil : forall s : string, s ++ "" = s).
  { induction s as [|x s IH]; simpl; [reflexivity|]. now rewrite IH. }
  split; [|split; [|split; [|split]]].
  - unfold build_message_span, build_message, string_view.
    change (Z.to_nat 1) with 1%nat. cbn [seq map].
    change (Z.of_nat 0) with 0. rewrite Z.add_0_r. reflexivity.
  - unfold build_message, write_if.
    destruct msg_before, msg_after; cbn [append];
      rewrite ?length_append; cbn [length]; lia.
  - unfold build_message_span, write_if.
    destruct msg_before, msg_after; cbn [append];
      rewrite ?length_append, ?length_string_view; cbn [length]; lia.
  - reflexivity.
  - unfold build_message, write_if. destruct msg_before; cbn [append];
      now rewrite ?Hnil.
Qed.

(** The text of an error at offset 42, and at a negative offset. *)
Example parse_error_text :
  m_msg (parse_error_msg (fun s => s) "unexpected character" 42)
  = "unexpected character (offset=42)" /\
  build_offset_msg (-7) = " (offset=-7)" /\
  build_message (Some "unexpected '") (Ascii.ascii_of_byte x78) (Some "'")
  = "unexpected 'x'".
Proof. repeat split; reflexivity. Qed.

End DiagnosticsFacts.

(** * The further properties on concrete buffers *)

(** Blanks, then [foo], in the SSE4.2 variant. *)
Lemma skip_space_and_control_first_above_space_witness :
  exists c', skip_space_and_control mem_blanks sse42_build (cursor 7) = Some c' /\
    c' = set_char (cursor 7) (mp_char c') /\
    mp_char (cursor 7) <= mp_char c' <= mp_end (cursor 7) /\
    (forall a, mp_char (cursor 7) <= a < mp_char c' ->
               uchar (mem_blanks a) <= 0x20) /\
    (mp_char c' = mp_end (cursor 7) \/ 0x20 < uchar (mem_blanks (mp_char c'))) /\
    skip_space_and_control mem_blanks sse42_build c' = Some c'.
Proof.
  apply skip_space_and_control_first_above_space. apply cursor_inv_cursor. lia.
Defined.

(** A set of seventeen bytes is compared as its first sixteen. *)
Lemma skip_sse42_truncates_set_witness :
  skip_sse42 mem_q 100 17 (cursor 3)
  = skip_scalar mem_q 100 (Z.min 17 16) (cursor 3).
Proof.
  apply skip_sse42_truncates_set.
  - apply cursor_inv_cursor. lia.
  - lia.
  - reflexivity.
Defined.

Lemma skip_passes_members_only_witness :
  exists c', skip mem_q sse42_build 100 17 (cursor 3) = Some c' /\
    c' = set_char (cursor 3) (mp_char c') /\
    mp_char (cursor 3) <= mp_char c' <= mp_end (cursor 3) /\
    forall a, mp_char (cursor 3) <= a < mp_char c' ->
              is_in mem_q (mem_q a) 100 17 = true.
Proof.
  apply skip_passes_members_only.
  - apply cursor_inv_cursor. lia.
  - lia.
Defined.

(** An empty set on [qqq]. *)
Lemma skip_nothing_to_skip_witness :
  skip mem_q sse42_build 100 0 (cursor 3) = Some (cursor 3).
Proof.
  apply skip_nothing_to_skip.
  - apply cursor_inv_cursor. lia.
  - left. reflexivity.
Defined.

(** [TRUE] at the start of [TRUE123], SSE4.2 variant. *)
Lemma parse_expected_accepts_match_witness :
  parse_expected mem_TRUE123 sse42_build 100 4 (cursor 7)
  = Some (true, set_char (cursor 7) (mp_char (cursor 7) + 4)).
Proof.
  apply parse_expected_accepts_match.
  - split; [lia|]. vm_compute. discriminate.
  - intros t Ht.
    assert (Hc : t = 0 \/ t = 1 \/ t = 2 \/ t = 3) by lia.
    destruct Hc as [ -> | [ -> | [ -> | -> ] ] ]; reflexivity.
Defined.

Lemma parse_expected_match_is_exact_witness :
  set_char (cursor 4) 2 = set_char (cursor 4) (mp_char (cursor 4) + 2) /\
  offset (set_char (cursor 4) 2) = offset (cursor 4) + 2 /\
  2 <= available_size (cursor 4) /\
  forall t, 0 <= t < 2 ->
            mem_ABCD (mp_char (cursor 4) + t) = mem_ABCD (100 + t).
Proof.
  apply (parse_expected_match_is_exact mem_ABCD sse42_build 100 2 (cursor 4)).
  - lia.
  - intros _. lia.
  - reflexivity.
Defined.

(** [AB] against [AXCD], scalar variant. *)
Lemma parse_expected_scalar_stops_at_mismatch_witness :
  exists j, 0 <= j < 2 /\
    set_char (cursor 4) 1 = set_char (cursor 4) (mp_char (cursor 4) + j) /\
    (forall t, 0 <= t < j ->
               mem_AXCD (mp_char (cursor 4) + t) = mem_AXCD (100 + t)) /\
    mem_AXCD (mp_char (cursor 4) + j) <> mem_AXCD (100 + j).
Proof.
  apply (parse_expected_scalar_stops_at_mismatch mem_AXCD scalar_build).
  - reflexivity.
  - split; [lia|]. vm_compute. discriminate.
  - reflexivity.
Defined.

Lemma reachable_TRUE123 :
  reachable mem_TRUE123 sse42_build (parser_base_ctor parse_digits 0 7 false)
            (set_char (cursor 7) 7).
Proof.
  apply (reach_step _ _ _ (set_char (cursor 7) 4)).
  - apply (reach_step _ _ _ (cursor 7)); [apply reach_init|].
    apply (step_parse_expected _ _ 100 4 true); [lia|reflexivity].
  - exact (step_parse_double mem_TRUE123 sse42_build (set_char (cursor 7) 4)).
Qed.

(** [TRUE123] after [parse_expected] and [parse_double]. *)
Lemma offset_plus_available_witness :
  offset (set_char (cursor 7) 7) + available_size (set_char (cursor 7) 7) = 7 /\
  0 <= offset (set_char (cursor 7) 7) <= 7 /\
  m_func_parse_numeric (set_char (cursor 7) 7) = parse_digits /\
  m_transient_stream (set_char (cursor 7) 7) = false.
Proof.
  apply (offset_plus_available mem_TRUE123 sse42_build parse_digits 0 7 false).
  - lia.
  - exact parse_digits_contract.
  - exact reachable_TRUE123.
Defined.

Lemma op_step_never_rewinds_witness :
  offset (set_char (cursor 7) 4)
  <= offset (snd (parse_double mem_TRUE123 (set_char (cursor 7) 4))) /\
  0 <= available_size (snd (parse_double mem_TRUE123 (set_char (cursor 7) 4)))
    <= available_size (set_char (cursor 7) 4).
Proof.
  apply (op_step_never_rewinds mem_TRUE123 sse42_build).
  - unfold cursor_inv. simpl. lia.
  - exact parse_digits_contract.
  - apply step_parse_double.
Defined.


(** * The SSE4.2 token matcher on failure *)

Lemma forallb_false_exists {A : Type} (g : A -> bool) (l : list A) :
  forallb g l = false -> exists x, In x l /\ g x = false.
Proof.
  induction l as [|x l IH]; simpl; [discriminate|].
  destruct (g x) eqn:E.
  - intros H. destruct (IH H) as (y & Hy & Hg). exists y. auto.
  - intros _. exists x. auto.
Qed.

(** X15.  In the SSE4.2 variant a failed [parse_expected] leaves the
    cursor it was given, for every length of the token, and it fails only
    when the token is longer than what is left of the buffer or some byte
    at the cursor, within the token, differs from the expected one. *)
Theorem parse_expected_sse42_failure_is_atomic (mem : memory)
    (f : cpu_features) (expected n : Z) (c c' : parser_base) :
  ORCUS_CPU_FEATURES f && SSE4_2 f = true -> 0 <= n ->
  parse_expected mem f expected n c = Some (false, c') ->
  c' = c /\
  (n > available_size c \/
   exists t, 0 <= t < n /\ mem (mp_char c + t) <> mem (expected + t)).
Proof.
  intros Hf Hn. unfold parse_expected. rewrite Hf.
  destruct (Z.gtb_spec n (available_size c)) as [Hlong|Hfit].
  - intros H. injection H as <-. split; [reflexivity|]. left. lia.
  - intros H0.
    assert (H : parse_expected_sse42 mem expected n c = (false, c'))
      by congruence.
    clear H0. split; [exact (parse_expected_sse42_failure mem _ _ _ _ H)|].
    right. unfold parse_expected_sse42 in H.
    destruct (prefix_match mem expected (mp_char c)
                (Intrin.str_len (to_int n))) eqn:E.
    + apply (cmpestrm_mask_of_match mem) in E. apply Z.eqb_neq in E.
      rewrite E in H. discriminate.
    + unfold prefix_match in E. apply forallb_false_exists in E.
      destruct E as (i & Hi & He). apply in_seq in Hi.
      apply Byte.eqb_false in He.
      assert (Hk : (Intrin.str_len (to_int n) <= Z.to_nat n)%nat).
      { unfold Intrin.str_len. destruct (Z_lt_le_dec n 16).
        - rewrite to_int_id by lia. lia.
        - lia. }
      exists (Z.of_nat i). split; [lia|exact He].
Qed.

(** [AB] against [AXCD], SSE4.2 variant. *)
Lemma parse_expected_sse42_failure_is_atomic_witness :
  cursor 4 = cursor 4 /\
  (2 > available_size (cursor 4) \/
   exists t, 0 <= t < 2 /\
             mem_AXCD (mp_char (cursor 4) + t) <> mem_AXCD (100 + t)).
Proof.
  apply (parse_expected_sse42_failure_is_atomic mem_AXCD sse42_build 100 2
           (cursor 4) (cursor 4)).
  - reflexivity.
  - lia.
  - reflexivity.
Defined.
